(** * remark-code-import: directive parsing and content extraction

    A shallow embedding of [src/index.ts] and the properties of its
    specification.

    Conventions of the embedding.
    - A JavaScript string is the list of its UTF-16 code units ([list N]);
      [js] turns an ASCII literal into such a list.
    - An array index is a [nat]; a line number produced by [parseInt] on a
      run of decimal digits is an [N].  [parseInt] rounds beyond 2^53 and
      returns [Infinity] for very long runs; both stay above every array
      length, and [Array.prototype.slice] clamps them alike, so the exact
      integer gives the same slices.
    - [console.error] and file reads are recorded as a trace of events;
      a thrown exception ends the computation and keeps the trace. *)

From Stdlib Require Import String Ascii NArith Lia.
From stdpp Require Import base option list gmap.

Local Open Scope N_scope.
Local Open Scope list_scope.

(** ** Strings *)

Abbreviation jstring := (list N).

Definition js (s : string) : jstring :=
  map N_of_ascii (list_ascii_of_string s).

(** U+000A and U+000D. *)
Definition LF : jstring := [10].
Definition CRLF : jstring := [13; 10].

(** [s.startsWith(pat)] *)
Fixpoint startsWith (s pat : jstring) {struct pat} : bool :=
  match pat, s with
  | [], _ => true
  | p :: pat', c :: s' => (c =? p) && startsWith s' pat'
  | _ :: _, [] => false
  end.

(** [s.includes(pat)] *)
Fixpoint includes (s pat : jstring) : bool :=
  startsWith s pat ||
  match s with
  | [] => false
  | _ :: s' => includes s' pat
  end.

(** [s.endsWith(pat)] *)
Definition endsWith (s pat : jstring) : bool :=
  startsWith (reverse s) (reverse pat).

(** [arr.join(sep)] *)
Fixpoint join (sep : jstring) (arr : list jstring) : jstring :=
  match arr with
  | [] => []
  | [x] => x
  | x :: rest => x ++ sep ++ join sep rest
  end.

(** [s.split(sep)] for a non-empty string separator: the scan of
    String.prototype.split.  [p] is the piece being collected, the last
    argument is what is left of the string at position [q]; a match of
    [sep] at [q] closes the piece and moves [q] behind the match.  The
    fuel is one more than the length of the string. *)
Fixpoint split_scan (fuel : nat) (sep p s : jstring) : list jstring :=
  match fuel with
  | O => [p ++ s]
  | S fuel' =>
      match s with
      | [] => [p]
      | c :: s' =>
          if startsWith s sep
          then p :: split_scan fuel' sep [] (drop (length sep) s)
          else split_scan fuel' sep (p ++ [c]) s'
      end
  end.

Definition split (s sep : jstring) : list jstring :=
  split_scan (S (length s)) sep [] s.

(** [arr.slice(start, end)] for a non-negative integer [start]; [end] is
    a non-negative integer or [undefined] (here [None]), which stands for
    the length.  Both bounds are clamped to the length. *)
Definition slice {A} (arr : list A) (start : nat) (end_ : option nat) : list A :=
  match end_ with
  | Some e => take (e - start) (drop start arr)
  | None => drop start arr
  end.

(** ** Character classes of the regular expressions *)

Definition in_range (lo hi c : N) : bool := (lo <=? c) && (c <=? hi).

(** [\d] *)
Definition is_digit (c : N) : bool := in_range 48 57 c.

(** [\w] without the [u] and [i] flags: [A-Za-z0-9_]. *)
Definition is_word (c : N) : bool :=
  in_range 65 90 c || in_range 97 122 c || is_digit c || (c =? 95).

(** [[\w\-_]] *)
Definition is_group_char (c : N) : bool :=
  is_word c || (c =? 45) || (c =? 95).

(** The longest prefix of [s] whose code units satisfy [f]: a greedy
    [[...]*]. *)
Fixpoint span_while (f : N -> bool) (s : jstring) : jstring :=
  match s with
  | c :: s' => if f c then c :: span_while f s' else []
  | [] => []
  end.

(** ** Effects *)

Inductive exn :=
| TypeError               (* a call of, or a read on, something that has no such member *)
| Error (msg : jstring)   (* [throw new Error(msg)] *)
| ReadError (path : jstring).   (* the error of a failed file read *)

Inductive event :=
| ConsoleError (msg : jstring)
| ReadFileSync (path : jstring)
| ReadFile (path : jstring).

Inductive completion (A : Type) :=
| Normal (a : A)
| Throw (e : exn).
Arguments Normal {A} a.
Arguments Throw {A} e.

(** A computation: the events it caused, in order, and how it ended. *)
Definition Eff (A : Type) : Type := list event * completion A.

Definition ret {A} (a : A) : Eff A := ([], Normal a).
Definition throw {A} (e : exn) : Eff A := ([], Throw e).
Definition emit (ev : event) : Eff unit := ([ev], Normal tt).

Definition bind {A B} (m : Eff A) (f : A -> Eff B) : Eff B :=
  match m with
  | (t, Normal a) => let '(t', r) := f a in (t ++ t', r)
  | (t, Throw e) => (t, Throw e)
  end.

Notation "x <- m ;; k" := (bind m (fun x => k))
  (at level 100, m at next level, right associativity).
Notation "m ;;; k" := (bind m (fun _ => k))
  (at level 100, right associativity).

Definition trace {A} (m : Eff A) : list event := fst m.
Definition outcome {A} (m : Eff A) : completion A := snd m.

(** ** Marker lines *)

Inductive Element :=
| text (line : jstring)
| group (name : jstring).

(** [getGroup]: the regular expression is the literal [group ] (with its
    space) followed by a named capture of zero or more characters of the
    class [\w\-_].  [exec] finds the leftmost place where the literal
    starts; the capture is the greedy run of class characters behind it,
    possibly empty.  Without a match the result is [undefined]. *)
Fixpoint getGroup (input : jstring) : option jstring :=
  if startsWith input (js "group ")
  then Some (span_while is_group_char (drop 6 input))
  else match input with
       | [] => None
       | _ :: rest => getGroup rest
       end.

Definition classify (line : jstring) : Element :=
  if includes line (js "group")
  then match getGroup line with
       | None => text line
       | Some g => group g
       end
  else text line.

(** ** The marker index: a plain object used as a dictionary

    [extractGroups] starts from the object literal [{}], whose prototype
    is [Object.prototype].  Reading [map[name]] therefore finds, for a
    name with no own property, the member of [Object.prototype] of that
    name when there is one.  The table lists these members with their
    [length] property: the arity for a function, none for [__proto__],
    which reads as the prototype object itself. *)

Definition object_prototype : list (jstring * option nat) :=
  [ (js "constructor", Some 1%nat);
    (js "__defineGetter__", Some 2%nat);
    (js "__defineSetter__", Some 2%nat);
    (js "hasOwnProperty", Some 1%nat);
    (js "__lookupGetter__", Some 1%nat);
    (js "__lookupSetter__", Some 1%nat);
    (js "isPrototypeOf", Some 1%nat);
    (js "propertyIsEnumerable", Some 1%nat);
    (js "toString", Some 0%nat);
    (js "valueOf", Some 0%nat);
    (js "__proto__", None);
    (js "toLocaleString", Some 0%nat) ].

Definition inherited (name : jstring) : option (option nat) :=
  snd <$> List.find (fun kv => bool_decide (fst kv = name)) object_prototype.

(** What [map[name]] evaluates to. *)
Inductive property :=
| Positions (q : list nat)       (* an own property: the array of positions *)
| Inherited (len : option nat)   (* a member of [Object.prototype] *)
| Undefined.

Definition get (map : gmap jstring (list nat)) (name : jstring) : property :=
  match map !! name with
  | Some q => Positions q
  | None =>
      match inherited name with
      | Some len => Inherited len
      | None => Undefined
      end
  end.

(** The body of the [forEach] callback of [extractGroups]:
    [(map[group] ??= []).push(index)].  An inherited member is neither
    [null] nor [undefined], so [??=] keeps it, and it has no [push]. *)
Definition record_marker (line : jstring) (index : nat)
    (map : gmap jstring (list nat)) : Eff (gmap jstring (list nat)) :=
  if includes line (js "group")
  then match getGroup line with
       | Some g =>
           match get map g with
           | Positions q => ret (<[g := q ++ [index]]> map)
           | Undefined => ret (<[g := [index]]> map)
           | Inherited _ => throw TypeError
           end
       | None => ret map
       end
  else ret map.

Fixpoint extractGroups_from (content : list jstring) (index : nat)
    (map : gmap jstring (list nat)) : Eff (gmap jstring (list nat)) :=
  match content with
  | [] => ret map
  | line :: rest =>
      map' <- record_marker line index map ;;
      extractGroups_from rest (S index) map'
  end.

Definition extractGroups (content : list jstring) : Eff (gmap jstring (list nat)) :=
  extractGroups_from content 0%nat ∅.

(** [array.shift()]: the removed first element, or [undefined] on an
    empty array, and the array as it is afterwards. *)
Definition shift (array : list nat) : option nat * list nat :=
  match array with
  | [] => (None, [])
  | p :: rest => (Some p, rest)
  end.

Definition not_found (name : jstring) : jstring :=
  js "Group " ++ name ++ js " not found in document".

(** The callback of [flatMap] in [transformDoc], with the marker index
    passed on explicitly.  [array] aliases the array stored in the index,
    so the two [shift] calls already change the index; the assignment
    after them stores the same array again.
    - [undefined]: the guard [array && ...] is false and
      [array.shift] throws.
    - an inherited member: the guard tests its [length] ([undefined < 2]
      is false); it has no [shift].
    - [undefined + 1] is [NaN], which [slice] reads as 0; an [undefined]
      end reads as the length. *)
Definition replay_element (content : list jstring)
    (groups : gmap jstring (list nat)) (el : Element)
    : Eff (list jstring * gmap jstring (list nat)) :=
  match el with
  | text line => ret ([line], groups)
  | group name =>
      match get groups name with
      | Undefined => throw TypeError
      | Inherited len =>
          (match len with
           | Some n => if (n <? 2)%nat then emit (ConsoleError (not_found name)) else ret tt
           | None => ret tt
           end) ;;;
          throw TypeError
      | Positions array =>
          (if (length array <? 2)%nat
           then emit (ConsoleError (not_found name)) else ret tt) ;;;
          let '(first, array1) := shift array in
          let start := match first with Some p => S p | None => 0%nat end in
          let '(second, array2) := shift array1 in
          ret (slice content start second, <[name := array2]> groups)
      end
  end.

(** The segments the callback returns, one for each element in turn. *)
Fixpoint replay (content : list jstring) (elements : list Element)
    (groups : gmap jstring (list nat)) : Eff (list (list jstring)) :=
  match elements with
  | [] => ret []
  | el :: rest =>
      r <- replay_element content groups el ;;
      segs <- replay content rest (snd r) ;;
      ret (fst r :: segs)
  end.

(** [elements.flatMap(cb).join("\n")] *)
Definition transformDoc (content : list jstring) (elements : list Element)
    : Eff jstring :=
  groups <- extractGroups content ;;
  segs <- replay content elements groups ;;
  ret (join LF (concat segs)).

Inductive Mode := classic | inline.

Section Platform.

(** [os.EOL]: [\n] on POSIX, [\r\n] on Windows. *)
Variable EOL : jstring.

Definition extractElements (input : jstring) : list Element :=
  map classify (split input EOL).

(** [fromLine || 1]: [undefined] and 0 are both falsy. *)
Definition start_line (fromLine : option N) : N :=
  match fromLine with
  | Some 0 | None => 1
  | Some n => n
  end.

(** The end boundary of the classic slice, as an array index.
    [else if (toLine)] is not taken for [undefined] nor for 0. *)
Definition end_line (lines : list jstring) (start : N) (hasDash : bool)
    (toLine : option N) (preserveTrailingNewline : bool) : nat :=
  if negb hasDash then N.to_nat start
  else match toLine with
       | Some (Npos m) => N.to_nat (Npos m)
       | _ =>
           if bool_decide (last lines = Some []) && negb preserveTrailingNewline
           then (length lines - 1)%nat
           else length lines
       end.

Definition extractLines (mode : Mode) (content : jstring)
    (fromLine : option N) (hasDash : bool) (toLine : option N)
    (oldValue : jstring) (preserveTrailingNewline : bool) : Eff jstring :=
  let lines := split content EOL in
  match mode with
  | classic =>
      let start := start_line fromLine in
      let end_ := end_line lines start hasDash toLine preserveTrailingNewline in
      ret (join LF (slice lines (N.to_nat (start - 1)) (Some end_)))
  | inline =>
      let elements := extractElements oldValue in
      transformDoc lines elements
  end.

End Platform.

(** ** The directive in the annotation of a code block *)

(** [meta.split(/(?<!\\) /g)]: a split at every space that does not
    directly follow a backslash.  [prev] is the code unit before the
    current position, [p] the piece being collected. *)
Fixpoint splitMeta_scan (prev : option N) (p s : jstring) : list jstring :=
  match s with
  | [] => [p]
  | c :: s' =>
      if (c =? 32) && negb (bool_decide (prev = Some 92))
      then p :: splitMeta_scan (Some c) [] s'
      else splitMeta_scan (Some c) (p ++ [c]) s'
  end.

Definition splitMeta (meta : jstring) : list jstring :=
  splitMeta_scan None [] meta.

(** What [.] does not match: LF, CR, U+2028 and U+2029. *)
Definition is_line_terminator (c : N) : bool :=
  (c =? 10) || (c =? 13) || (c =? 8232) || (c =? 8233).

(** The named groups of a match of the directive expression
    [^file=(?<path>.+?)(?:(?:#(?:L(?<from>\d+)(?<dash>-)?)?)(?:L(?<to>\d+))?)?$]. *)
Record Groups := {
  g_path : jstring;
  g_from : option jstring;
  g_dash : bool;
  g_to : option jstring
}.

(** [L\d+] at the start of [s] with the greedy run of digits: the digits
    and what follows them. *)
Definition match_L_digits (s : jstring) : option (jstring * jstring) :=
  match s with
  | 76 :: r =>
      match span_while is_digit r with
      | [] => None
      | d => Some (d, drop (length d) r)
      end
  | _ => None
  end.

(** The part of the expression behind the path, matched up to the end of
    the input: the optional group [#], [L from], [-], [L to], then [$].
    Greedy choices come first; backing off from them never gives a match
    the greedy choice missed, because a shorter run of digits is followed
    by a digit, and skipping [L from] leaves [L to] the very same text. *)
Definition match_tail (s : jstring) : option (option jstring * bool * option jstring) :=
  match s with
  | [] => Some (None, false, None)
  | 35 :: r =>
      match match_L_digits r with
      | Some (from, r1) =>
          let '(dash, r2) :=
            match r1 with
            | 45 :: r2 => (true, r2)
            | _ => (false, r1)
            end in
          match r2 with
          | [] => Some (Some from, dash, None)
          | _ =>
              match match_L_digits r2 with
              | Some (to, []) => Some (Some from, dash, Some to)
              | _ => None
              end
          end
      | None =>
          match r with
          | [] => Some (None, false, None)
          | _ => None
          end
      end
  | _ => None
  end.

(** The lazy [.+?]: the path grows by one code unit at a time, and stops
    as soon as the rest of the expression matches what is left. *)
Fixpoint match_path (path rest : jstring) {struct rest} : option Groups :=
  match match_tail rest with
  | Some (from, dash, to) =>
      Some {| g_path := path; g_from := from; g_dash := dash; g_to := to |}
  | None =>
      match rest with
      | c :: rest' =>
          if is_line_terminator c then None
          else match_path (path ++ [c]) rest'
      | [] => None
      end
  end.

Definition exec_fileMeta (fileMeta : jstring) : option Groups :=
  if startsWith fileMeta (js "file=")
  then match drop 5 fileMeta with
       | c :: rest =>
           if is_line_terminator c then None else match_path [c] rest
       | [] => None
       end
  else None.

(** [parseInt(s, 10)] on a run of decimal digits. *)
Definition parseInt (s : jstring) : N :=
  fold_left (fun acc c => acc * 10 + (c - 48)) s 0.

(** The replacement text of [String.prototype.replace] with a string
    replacement and an expression without capture groups: [$$] is a
    dollar, [$&] the matched text, [$`] the text before the match (empty
    for a match at the start), [$'] the text behind it; every other
    dollar stays. *)
Fixpoint getSubstitution (matched after replacement : jstring) : jstring :=
  match replacement with
  | 36 :: 36 :: r => 36 :: getSubstitution matched after r
  | 36 :: 38 :: r => matched ++ getSubstitution matched after r
  | 36 :: 96 :: r => getSubstitution matched after r
  | 36 :: 39 :: r => after ++ getSubstitution matched after r
  | c :: r => c :: getSubstitution matched after r
  | [] => []
  end.

(** [filePath.replace(/^<rootDir>/, rootDir)] *)
Definition replaceRootDir (filePath rootDir : jstring) : jstring :=
  if startsWith filePath (js "<rootDir>")
  then let after := drop 9 filePath in
       getSubstitution (js "<rootDir>") after rootDir ++ after
  else filePath.

(** [s.replace(/\\ /g, ' ')]: every backslash followed by a space becomes
    a space. *)
Fixpoint unescapeSpaces (s : jstring) : jstring :=
  match s with
  | 92 :: 32 :: r => 32 :: unescapeSpaces r
  | c :: r => c :: unescapeSpaces r
  | [] => []
  end.

(** [(node.meta || '').includes("inline") ? "inline" : "classic"] *)
Definition mode_of (meta : option jstring) : Mode :=
  if includes (default [] meta) (js "inline") then inline else classic.

(** ** The orchestrator *)

Record CodeImportOptions := {
  async : bool;
  preserveTrailingNewline : bool;
  removeRedundantIndentations : bool;
  rootDir : option jstring;
  allowImportingFromOutside : bool
}.

(** An mdast [code] node: its [meta] may be a string, [null] or
    [undefined]. *)
Record Code := {
  meta : option jstring;
  value : jstring
}.

(** The one member of the [VFile] that is used. *)
Record VFile := {
  dirname : option jstring
}.

(** A read issued by [fs.readFile] whose callback has not run yet. *)
Record Job := {
  job_path : jstring;
  job_mode : Mode;
  job_from : option N;
  job_dash : bool;
  job_to : option N
}.

Definition quote : jstring := [34].

Definition not_a_vfile : jstring :=
  quote ++ js "file" ++ quote ++ js " should be an instance of VFile".

Definition unable_to_parse (fileMeta : jstring) : jstring :=
  js "Unable to parse file path " ++ fileMeta.

Definition outside_rootDir (fileAbsPath root : jstring) : jstring :=
  js "Attempted to import code from " ++ quote ++ fileAbsPath ++ quote ++
  js ", which is outside from the rootDir " ++ quote ++ root ++ quote.

Definition rootDir_not_absolute : jstring :=
  quote ++ js "rootDir" ++ quote ++ js " has to be an absolute path".

Section Host.

(** The host: [os.EOL], the functions of [node:path], [process.cwd()],
    the files that can be read, and [strip-indent]. *)
Variable EOL : jstring.
Variable path_sep : jstring.
Variable path_isAbsolute : jstring -> bool.
Variable path_resolve : jstring -> jstring -> jstring.
Variable path_relative : jstring -> jstring -> jstring.
Variable process_cwd : jstring.
Variable fs : jstring -> option jstring.
Variable stripIndent : jstring -> jstring.

Variable options : CodeImportOptions.

(** [options.rootDir || process.cwd()] *)
Definition effective_rootDir : jstring :=
  match rootDir options with
  | Some (c :: r) => c :: r
  | _ => process_cwd
  end.

(** The result of [extractLines] stored in the node, with the optional
    pass through [stripIndent]. *)
Definition store_value (node : Code) (job : Job) (fileContent : jstring) : Eff Code :=
  v <- extractLines EOL (job_mode job) fileContent (job_from job) (job_dash job)
         (job_to job) (value node) (preserveTrailingNewline options) ;;
  ret {| meta := meta node;
         value := if removeRedundantIndentations options then stripIndent v else v |}.

(** One iteration of the loop over the code nodes, for the root [root]:
    the node as the iteration leaves it, and the read it has issued when
    the pass is asynchronous. *)
Definition visit_code (root : jstring) (file : VFile) (node : Code)
    : Eff (Code * option Job) :=
  match List.find (fun tok => startsWith tok (js "file=")) (splitMeta (default [] (meta node))) with
  | None | Some [] => ret (node, None)
  | Some fileMeta =>
      match dirname file with
      | None | Some [] => throw (Error not_a_vfile)
      | Some dir =>
          match exec_fileMeta fileMeta with
          | None => throw (Error (unable_to_parse fileMeta))
          | Some res =>
              match g_path res with
              | [] => throw (Error (unable_to_parse fileMeta))
              | filePath =>
                  let fromLine := parseInt <$> g_from res in
                  let hasDash := g_dash res || bool_decide (fromLine = None) in
                  let toLine := parseInt <$> g_to res in
                  let normalizedFilePath := unescapeSpaces (replaceRootDir filePath root) in
                  let fileAbsPath := path_resolve dir normalizedFilePath in
                  let job := {| job_path := fileAbsPath; job_mode := mode_of (meta node);
                                job_from := fromLine; job_dash := hasDash; job_to := toLine |} in
                  (if negb (allowImportingFromOutside options)
                   then let relativePathFromRootDir := path_relative root fileAbsPath in
                        if bool_decide (root = [])
                           || startsWith relativePathFromRootDir (js ".." ++ path_sep)
                           || path_isAbsolute relativePathFromRootDir
                        then throw (Error (outside_rootDir fileAbsPath root))
                        else ret tt
                   else ret tt) ;;;
                  if async options
                  then emit (ReadFile fileAbsPath) ;;; ret (node, Some job)
                  else emit (ReadFileSync fileAbsPath) ;;;
                       match fs fileAbsPath with
                       | None => throw (ReadError fileAbsPath)
                       | Some fileContent =>
                           node' <- store_value node job fileContent ;;
                           ret (node', None)
                       end
              end
          end
      end
  end.

(** The callback of [fs.readFile] for a pending read, run on the node
    as it is then: the promise is rejected with the read error, or
    resolved after the node has been updated.  An exception thrown by
    [extractLines] leaves the callback uncaught. *)
Definition readFile_callback (job : Job) (node : Code) : Eff (Code + exn) :=
  match fs (job_path job) with
  | None => ret (inr (ReadError (job_path job)))
  | Some fileContent =>
      node' <- store_value node job fileContent ;;
      ret (inl node')
  end.

(** The loop over the collected code nodes, in document order. *)
Fixpoint visit_codes (root : jstring) (file : VFile) (codes : list Code)
    : Eff (list (Code * option Job)) :=
  match codes with
  | [] => ret []
  | node :: rest =>
      r <- visit_code root file node ;;
      rs <- visit_codes root file rest ;;
      ret (r :: rs)
  end.

(** What the transformer returns: [undefined] when no read is pending,
    and otherwise the promise of all pending reads. *)
Inductive Pass :=
| Returned (codes : list Code)
| Pending (codes : list (Code * option Job)).

Definition transformer (root : jstring) (codes : list Code) (file : VFile) : Eff Pass :=
  rs <- visit_codes root file codes ;;
  if forallb (fun r => bool_decide (snd r = None)) rs
  then ret (Returned (map fst rs))
  else ret (Pending rs).

(** [codeImport(options)] followed by a call of the transformer it
    returns. *)
Definition codeImport (codes : list Code) (file : VFile) : Eff Pass :=
  let root := effective_rootDir in
  if negb (path_isAbsolute root)
  then throw (Error rootDir_not_absolute)
  else transformer root codes file.

End Host.

(** ** The inputs of the scenarios *)

(** The template body and the file content of the scenario of the
    specification. *)
Definition scenario_template : jstring :=
  js "a" ++ LF ++ js "<!-- group x -->" ++ LF ++ js "<!-- group x -->" ++ LF ++ js "b".

Definition scenario_file : jstring :=
  js "1" ++ LF ++ js "<!-- group x -->" ++ LF ++ js "2" ++ LF ++
  js "<!-- group x -->" ++ LF ++ js "3".

(** ** The words of the specification, for comparison with the code *)

(** The lines of a file, as the range extractor splits them. *)
Definition file_lines (EOL F : jstring) : list jstring := split F EOL.

(** The lines of [F] without one trailing empty line when [F] ends with
    the line terminator. *)
Definition lines_without_trailing_empty (EOL F : jstring) : list jstring :=
  if endsWith F EOL then removelast (file_lines EOL F) else file_lines EOL F.

(** The lines from line [n] (counted from 1) to the end. *)
Definition lines_from (n : N) (lines : list jstring) : list jstring :=
  drop (N.to_nat n - 1) lines.

(** White space, as [\s] reads it. *)
Definition is_whitespace (c : N) : bool :=
  in_range 9 13 c || (c =? 32) || (c =? 160) || (c =? 5760) ||
  in_range 8192 8202 c || (c =? 8232) || (c =? 8233) || (c =? 8239) ||
  (c =? 8287) || (c =? 12288) || (c =? 65279).

(** Some whitespace-delimited token of [s] begins with [pre].  A token
    begins at the start of the annotation and behind white space;
    [boundary] tells whether the current position is such a place. *)
Fixpoint token_begins (pre : jstring) (boundary : bool) (s : jstring) : bool :=
  (boundary && startsWith s pre) ||
  match s with
  | [] => false
  | c :: s' => token_begins pre (is_whitespace c) s'
  end.

Definition has_token_beginning (pre annotation : jstring) : bool :=
  token_begins pre true annotation.

(** Some whitespace-delimited token of [s] is exactly [tok]: it begins at
    a boundary and is followed by white space or by the end. *)
Fixpoint token_is (tok : jstring) (boundary : bool) (s : jstring) : bool :=
  (boundary && startsWith s tok &&
   match drop (length tok) s with
   | [] => true
   | c :: _ => is_whitespace c
   end) ||
  match s with
  | [] => false
  | c :: s' => token_is tok (is_whitespace c) s'
  end.

Definition has_token (tok annotation : jstring) : bool :=
  token_is tok true annotation.

(** ** A small host for the examples

    Stand-ins for [node:path] and [node:fs] on which the statements about
    the orchestrator are tried: paths are not normalised, and one file
    exists. *)

Definition toy_isAbsolute (p : jstring) : bool := startsWith p (js "/").

Definition toy_resolve (dir p : jstring) : jstring :=
  if toy_isAbsolute p then p else dir ++ js "/" ++ p.

Definition toy_relative (from to : jstring) : jstring :=
  if startsWith to (from ++ js "/") then drop (length from + 1) to else to.

Definition toy_fs (p : jstring) : option jstring :=
  if bool_decide (p = js "/root/../secret")
  then Some (js "top" ++ LF ++ js "secret" ++ LF)
  else None.

Definition toy_options (allow : bool) : CodeImportOptions :=
  {| async := false;
     preserveTrailingNewline := false;
     removeRedundantIndentations := false;
     rootDir := Some (js "/root");
     allowImportingFromOutside := allow |}.

Definition toy_file : VFile := {| dirname := Some (js "/root") |}.

(** A run of decimal digits, as [\d+] matches it whole. *)
Definition is_numeral (d : jstring) : bool :=
  negb (bool_decide (d = [])) && forallb is_digit d.

(** A path the lazy [.+?] can cover: not empty, and free of line
    terminators. *)
Definition is_path (p : jstring) : bool :=
  negb (bool_decide (p = [])) && forallb (fun c => negb (is_line_terminator c)) p.

(** [line] is a marker line of group [name]. *)
Definition is_marker_of (name line : jstring) : bool :=
  bool_decide (getGroup line = Some name).

(** The positions, counted from [index], of the marker lines of group
    [name]: the queue of [name] in the marker index. *)
Fixpoint marker_positions (name : jstring) (content : list jstring) (index : nat)
    : list nat :=
  match content with
  | [] => []
  | line :: rest =>
      if is_marker_of name line
      then index :: marker_positions name rest (S index)
      else marker_positions name rest (S index)
  end.

(** No marker line names a member of [Object.prototype]. *)
Definition names_are_plain (content : list jstring) : bool :=
  forallb (fun line =>
             match getGroup line with
             | Some g => bool_decide (inherited g = None)
             | None => true
             end) content.

(** ** More words for the statements *)

(** A path as its author writes it in an annotation: every space is
    escaped with a backslash. *)
Fixpoint escapeSpaces (s : jstring) : jstring :=
  match s with
  | [] => []
  | c :: r => if c =? 32 then 92 :: 32 :: escapeSpaces r else c :: escapeSpaces r
  end.

(** No code unit of [s] is [c]. *)
Definition free_of (c : N) (s : jstring) : bool :=
  forallb (fun x => negb (x =? c)) s.

(** The positions of a queue taken two at a time, in order. *)
Fixpoint pair_up (q : list nat) : list (nat * nat) :=
  match q with
  | p :: e :: rest => (p, e) :: pair_up rest
  | _ => []
  end.

(** The lines of the file strictly between two positions. *)
Definition interior (content : list jstring) (pe : nat * nat) : list jstring :=
  slice content (S (fst pe)) (Some (snd pe)).

(** The options with the [async] flag set to [b]. *)
Definition with_async (b : bool) (o : CodeImportOptions) : CodeImportOptions :=
  {| async := b;
     preserveTrailingNewline := preserveTrailingNewline o;
     removeRedundantIndentations := removeRedundantIndentations o;
     rootDir := rootDir o;
     allowImportingFromOutside := allowImportingFromOutside o |}.

(** ** A POSIX host for absolute paths

    [path.resolve] and [path.relative] as they work on POSIX for absolute
    arguments: a path is cut into its segments at [/], empty segments and
    [.] are dropped, and [..] removes the segment before it (none is left
    to remove at the root). *)

Definition posix_isAbsolute (p : jstring) : bool := startsWith p (js "/").

Definition posix_segments (p : jstring) : list jstring :=
  fold_left
    (fun stack seg =>
       if bool_decide (seg = []) || bool_decide (seg = js ".") then stack
       else if bool_decide (seg = js "..") then removelast stack
       else stack ++ [seg])
    (split p (js "/")) [].

Definition posix_normalize (p : jstring) : jstring :=
  js "/" ++ join (js "/") (posix_segments p).

(** [path.resolve(dir, p)] for an absolute [dir]. *)
Definition posix_resolve (dir p : jstring) : jstring :=
  if posix_isAbsolute p then posix_normalize p
  else posix_normalize (dir ++ js "/" ++ p).

(** What is left of two lists of segments behind their common start. *)
Fixpoint strip_common (a b : list jstring) : list jstring * list jstring :=
  match a, b with
  | x :: a', y :: b' => if bool_decide (x = y) then strip_common a' b' else (a, b)
  | _, _ => (a, b)
  end.

(** [path.relative(from, to)] for absolute arguments: one [..] for every
    segment of [from] behind the common start, then what is left of [to]. *)
Definition posix_relative (from to : jstring) : jstring :=
  let '(up, down) := strip_common (posix_segments from) (posix_segments to) in
  join (js "/") (map (fun _ => js "..") up ++ down).

(** A file system with one file; every other path, a directory included,
    cannot be read. *)
Definition notes_fs (p : jstring) : option jstring :=
  if bool_decide (p = js "/data/notes.txt") then Some (js "private" ++ LF) else None.

Definition options_with_root (root : jstring) : CodeImportOptions :=
  {| async := false;
     preserveTrailingNewline := false;
     removeRedundantIndentations := false;
     rootDir := Some root;
     allowImportingFromOutside := false |}.

(** ** Properties of the string functions *)

Lemma startsWith_prefix (s pat : jstring) :
  startsWith s pat = true <-> pat `prefix_of` s.
Proof.
  revert s; induction pat as [|p pat IH]; intros s; simpl.
  - split; [intros _; apply prefix_nil | reflexivity].
  - destruct s as [|c s].
    + split; [discriminate | intros H; apply prefix_nil_inv in H; discriminate].
    + rewrite andb_true_iff, N.eqb_eq, IH. split.
      * intros [-> H]. by apply prefix_cons.
      * intros H. split.
        -- symmetry. eapply prefix_cons_inv_1, H.
        -- eapply prefix_cons_inv_2, H.
Qed.

Lemma startsWith_app (pat rest : jstring) : startsWith (pat ++ rest) pat = true.
Proof. apply startsWith_prefix. by exists rest. Qed.

Lemma endsWith_suffix (s pat : jstring) :
  endsWith s pat = true <-> pat `suffix_of` s.
Proof.
  unfold endsWith. rewrite startsWith_prefix. symmetry.
  by rewrite suffix_prefix_reverse.
Qed.

Lemma includes_infix (s pat : jstring) :
  includes s pat = true <-> exists before after, s = before ++ pat ++ after.
Proof.
  induction s as [|c s IH]; simpl.
  - rewrite orb_false_r, startsWith_prefix. split.
    + intros [k ->]. by exists [], k.
    + intros (b & a & H). destruct b; simpl in H.
      * by exists a.
      * discriminate.
  - rewrite orb_true_iff, startsWith_prefix, IH. split.
    + intros [[k ->] | (b & a & ->)].
      * by exists [], k.
      * by exists (c :: b), a.
    + intros (b & a & H). destruct b as [|c' b]; simpl in H.
      * left. by exists a.
      * right. injection H as -> ->. by exists b, a.
Qed.

Lemma includes_app (before pat after : jstring) :
  includes (before ++ pat ++ after) pat = true.
Proof. apply includes_infix. by exists before, after. Qed.

Lemma bind_ret_l {A B} (a : A) (f : A -> Eff B) : bind (ret a) f = f a.
Proof. unfold bind, ret. by destruct (f a). Qed.

Lemma bind_throw {A B} (e : exn) (f : A -> Eff B) : bind (throw e) f = throw e.
Proof. reflexivity. Qed.

Lemma bind_assoc {A B C} (m : Eff A) (f : A -> Eff B) (g : B -> Eff C) :
  bind (bind m f) g = bind m (fun a => bind (f a) g).
Proof.
  destruct m as [t [a|e]]; simpl; [|done].
  destruct (f a) as [t' [b|e]]; simpl; [|done].
  destruct (g b) as [t'' r]. by rewrite app_assoc.
Qed.

Lemma bind_ret_r {A} (m : Eff A) : bind m ret = m.
Proof. destruct m as [t [a|e]]; simpl; [|done]. by rewrite app_nil_r. Qed.

Lemma bind_ext {A B} (m : Eff A) (f g : A -> Eff B) :
  (forall a, f a = g a) -> bind m f = bind m g.
Proof. intros H. destruct m as [t [a|e]]; simpl; [|done]. by rewrite H. Qed.

(** ** The last piece of a split *)

Lemma split_scan_nonempty fuel sep p s : split_scan fuel sep p s <> [].
Proof.
  revert p s; induction fuel as [|fuel IH]; intros p s; simpl; [done|].
  destruct s as [|c s]; [done|]. destruct (startsWith _ _); [done|apply IH].
Qed.

Section SplitLast.

Variable sep : jstring.
Hypothesis sep_nonempty : sep <> [].
(** The separator has no border: it cannot end inside a copy of itself. *)
Hypothesis sep_unbordered :
  forall t, sep `suffix_of` (sep ++ t) -> t = [] \/ sep `suffix_of` t.

Lemma split_scan_last fuel p s :
  (length s < fuel)%nat ->
  last (split_scan fuel sep p s) = Some [] <->
  (p = [] /\ s = []) \/ sep `suffix_of` s.
Proof.
  revert p s; induction fuel as [|fuel IH]; intros p s Hlen; [lia|].
  destruct s as [|c s]; simpl.
  - split.
    + intros [= ->]. by left.
    + intros [[-> _]|H]; [done|].
      apply suffix_nil_inv in H. done.
  - destruct (startsWith (c :: s) sep) eqn:Hpre.
    + apply startsWith_prefix in Hpre as [t Ht].
      rewrite Ht, drop_app_length, last_cons.
      assert (Hsep : (0 < length sep)%nat) by (destruct sep; [done|simpl; lia]).
      assert (Hlt : (length t < fuel)%nat).
      { apply (f_equal length) in Ht. rewrite length_app in Ht. simpl in *. lia. }
      specialize (IH [] t Hlt).
      destruct (last (split_scan fuel sep [] t)) as [l|] eqn:Hlast.
      * rewrite IH. split.
        -- intros [[_ ->]|H]; right; [by rewrite app_nil_r|by apply suffix_app_r].
        -- intros [[_ H]|H].
           ++ destruct sep; [done|discriminate].
           ++ apply sep_unbordered in H as [->|H]; [by left|by right].
      * apply last_None in Hlast. by apply split_scan_nonempty in Hlast.
    + rewrite IH by (simpl in Hlen; lia). split.
      * intros [[H _]|H]; [by destruct p|]. right. by apply suffix_cons_r.
      * intros [[_ H]|H]; [done|]. right.
        destruct H as [[|c' k] Hk]; simpl in Hk.
        -- rewrite Hk in Hpre.
           assert (startsWith sep sep = true) by (by apply startsWith_prefix).
           congruence.
        -- injection Hk as _ ->. by exists k.
Qed.

Lemma split_last s :
  last (split s sep) = Some [] <-> s = [] \/ endsWith s sep = true.
Proof.
  unfold split. rewrite split_scan_last by lia. rewrite endsWith_suffix.
  split; intros [H|H]; auto. by destruct H; left.
Qed.

End SplitLast.

Lemma LF_unbordered t : LF `suffix_of` (LF ++ t) -> t = [] \/ LF `suffix_of` t.
Proof.
  destruct t as [|x t _] using rev_ind; [by left|]. intros H. right.
  change (LF ++ t ++ [x]) with (([10] ++ t) ++ [x]) in H.
  change LF with ([] ++ [10]) in H.
  apply suffix_snoc_inv_1 in H as <-. by apply suffix_app_r.
Qed.

Lemma CRLF_unbordered t : CRLF `suffix_of` (CRLF ++ t) -> t = [] \/ CRLF `suffix_of` t.
Proof.
  destruct t as [|x t _] using rev_ind; [by left|]. intros H. right.
  destruct t as [|y t _] using rev_ind.
  - destruct H as [k Hk]. apply (f_equal length) in Hk as Hlen.
    rewrite !length_app in Hlen. simpl in Hlen.
    destruct k as [|a [|b k]]; simpl in *; [lia| |lia]. discriminate.
  - unfold CRLF in *.
    replace ([13; 10] ++ (t ++ [y]) ++ [x]) with ((([13; 10] ++ t) ++ [y]) ++ [x]) in H
      by (by rewrite <- !app_assoc).
    change [13; 10] with ([13] ++ [10]) in H at 1.
    pose proof (suffix_snoc_inv_1 _ _ _ _ H) as <-.
    apply suffix_snoc_inv_2 in H.
    change [13] with ([] ++ [13]) in H.
    apply suffix_snoc_inv_1 in H as <-.
    rewrite <- app_assoc. apply suffix_app_r. done.
Qed.

(** ** The range extractor *)

Lemma slice_to_length {A} (l : list A) k :
  slice l k (Some (length l)) = drop k l.
Proof.
  unfold slice. apply take_ge. rewrite length_drop. lia.
Qed.

Lemma slice_to_pred_length {A} (l : list A) k :
  slice l k (Some (length l - 1)%nat) = drop k (removelast l).
Proof.
  unfold slice. rewrite removelast_firstn_len, skipn_firstn_comm.
  f_equal. lia.
Qed.

Lemma start_line_index n : N.to_nat (start_line (Some n) - 1) = (N.to_nat n - 1)%nat.
Proof. destruct n; simpl; lia. Qed.

Lemma join_drop_singleton_empty sep k : join sep (drop k [[]]) = [].
Proof. destruct k as [|k]; simpl; [done|]. by rewrite drop_nil. Qed.

(** C7.  For every file content [F] and every from-line [n], on either
    platform, classic extraction with a dash, no [toLine] and
    [preserveTrailingNewline = false] returns the lines of [F] from [n] to
    the end, without one trailing empty line when [F] ends with the line
    terminator, joined with a line feed. *)
Theorem classic_from_line_to_end (EOL F : jstring) (n : N) (oldValue : jstring) :
  EOL = LF \/ EOL = CRLF ->
  extractLines EOL classic F (Some n) true None oldValue false
  = ret (join LF (lines_from n (lines_without_trailing_empty EOL F))).
Proof.
  intros HEOL.
  assert (Hne : EOL <> []) by (destruct HEOL as [-> | ->]; done).
  assert (Hub : forall t, EOL `suffix_of` (EOL ++ t) -> t = [] \/ EOL `suffix_of` t).
  { destruct HEOL as [-> | ->]; [apply LF_unbordered|apply CRLF_unbordered]. }
  unfold extractLines, end_line, lines_from, lines_without_trailing_empty, file_lines.
  rewrite start_line_index. simpl negb. cbv iota. apply (f_equal ret).
  case_bool_decide as Hlast; cbn [andb negb].
  - rewrite slice_to_pred_length.
    apply (split_last EOL Hne Hub) in Hlast as [-> | ->]; [|done].
    assert (endsWith [] EOL = false) as -> by (destruct HEOL as [-> | ->]; done).
    change (split [] EOL) with [[] : jstring]. simpl removelast.
    by rewrite drop_nil, join_drop_singleton_empty.
  - rewrite slice_to_length.
    destruct (endsWith F EOL) eqn:Hends; [|done].
    exfalso. apply Hlast. apply (split_last EOL Hne Hub). by right.
Qed.

Lemma classic_from_line_to_end_witness :
  extractLines LF classic (js "a" ++ LF ++ js "b" ++ LF ++ js "c" ++ LF)
    (Some 2) true None (js "old") false
  = ret (js "b" ++ LF ++ js "c").
Proof.
  exact (eq_trans
           (classic_from_line_to_end LF (js "a" ++ LF ++ js "b" ++ LF ++ js "c" ++ LF)
              2 (js "old") (or_introl eq_refl))
           eq_refl).
Defined.

(** C10.  In classic mode the result of [extractLines] does not depend on
    the prior body of the placeholder: two runs that differ only in
    [oldValue] return the same.  In group mode the prior body is the
    template, and two bodies can give different results. *)
Theorem classic_ignores_prior_body (EOL content : jstring) (fromLine : option N)
    (hasDash : bool) (toLine : option N) (oldValue1 oldValue2 : jstring)
    (preserveTrailingNewline : bool) :
  extractLines EOL classic content fromLine hasDash toLine oldValue1 preserveTrailingNewline
  = extractLines EOL classic content fromLine hasDash toLine oldValue2 preserveTrailingNewline
  /\ extractLines LF inline scenario_file None true None (js "a") false
     <> extractLines LF inline scenario_file None true None (js "b") false.
Proof. split; [reflexivity|]. vm_compute. discriminate. Qed.

(** ** The marker extractor on the scenarios *)

(** C1.  On the scenario of the specification the second reference to
    [x] finds the queue of [x] empty: the code reports the group as not
    found and then emits the whole file for it, so the result is not
    the expected [a], [2], [b].  Where the line terminator is [\r\n] the
    template and the file are one line each, and the result is empty. *)
Theorem scenario_extraction :
  extractLines LF inline scenario_file None true None scenario_template false
  = ([ConsoleError (not_found (js "x"))],
     Normal (js "a" ++ LF ++ js "2" ++ LF ++ scenario_file ++ LF ++ js "b"))
  /\ outcome (extractLines LF inline scenario_file None true None scenario_template false)
     <> Normal (js "a" ++ LF ++ js "2" ++ LF ++ js "b")
  /\ extractLines CRLF inline scenario_file None true None scenario_template false
     = ([ConsoleError (not_found (js "x"))], Normal []).
Proof. split; [by vm_compute|]. split; [|by vm_compute]. vm_compute. discriminate. Qed.

(** X3.  A reference whose name has an own queue with fewer than two
    positions prints the diagnostic and still slices: with one position
    [p] left it emits every line behind [p], with none left the whole
    file.  A reference whose name has no queue and is no member of
    [Object.prototype] throws, without a diagnostic. *)
Theorem short_queue_reference (content : list jstring)
    (groups : gmap jstring (list nat)) (name : jstring) :
  (forall p, groups !! name = Some [p] ->
     replay_element content groups (group name)
     = ([ConsoleError (not_found name)],
        Normal (drop (S p) content, <[name := []]> groups)))
  /\ (groups !! name = Some [] ->
      replay_element content groups (group name)
      = ([ConsoleError (not_found name)], Normal (content, <[name := []]> groups)))
  /\ (groups !! name = None -> inherited name = None ->
      replay_element content groups (group name) = ([], Throw TypeError)).
Proof.
  unfold replay_element, get. repeat split.
  - intros p ->. reflexivity.
  - intros ->. reflexivity.
  - intros -> ->. reflexivity.
Qed.

Lemma short_queue_reference_witness :
  replay_element [js "1"; js "// group x"; js "2"; js "3"] {[ js "x" := [1%nat] ]}
    (group (js "x"))
  = ([ConsoleError (not_found (js "x"))],
     Normal ([js "2"; js "3"], <[js "x" := []]> {[ js "x" := [1%nat] ]})).
Proof.
  exact (proj1 (short_queue_reference [js "1"; js "// group x"; js "2"; js "3"]
                  {[ js "x" := [1%nat] ]} (js "x")) 1%nat (lookup_singleton_eq _ _)).
Defined.

(** C2.  What the code does for a reference with fewer than two
    positions left.  With one marker of [x] in the file the segment is
    everything behind the marker; with the pair of [x] already used the
    segment is the whole file; with no marker of [x] at all a
    [TypeError] ends the extraction, and no diagnostic is printed. *)
Theorem short_queue_segments :
  extractLines LF inline (js "1" ++ LF ++ js "<!-- group x -->" ++ LF ++ js "2")
    None true None (js "<!-- group x -->") false
  = ([ConsoleError (not_found (js "x"))], Normal (js "2"))
  /\
  extractLines LF inline (js "<!-- group x -->" ++ LF ++ js "1" ++ LF ++ js "<!-- group x -->")
    None true None (js "<!-- group x -->" ++ LF ++ js "<!-- group x -->") false
  = ([ConsoleError (not_found (js "x"))],
     Normal (js "1" ++ LF ++
             js "<!-- group x -->" ++ LF ++ js "1" ++ LF ++ js "<!-- group x -->"))
  /\
  extractLines LF inline (js "1" ++ LF ++ js "2")
    None true None (js "<!-- group x -->") false
  = ([], Throw TypeError).
Proof. repeat split; by vm_compute. Qed.

(** ** The marker index of a file *)

Lemma getGroup_includes line g :
  getGroup line = Some g -> includes line (js "group") = true.
Proof.
  induction line as [|c line IH].
  - done.
  - cbn [getGroup includes].
    destruct (startsWith (c :: line) (js "group ")) eqn:Hstart.
    + intros _. apply startsWith_prefix in Hstart.
      assert (H : js "group" `prefix_of` c :: line).
      { etrans; [|exact Hstart]. by exists [32]. }
      apply startsWith_prefix in H. by rewrite H.
    + intros H. rewrite (IH H). apply orb_true_r.
Qed.

Lemma get_plain groups name :
  inherited name = None ->
  get groups name = match groups !! name with
                    | Some q => Positions q
                    | None => Undefined
                    end.
Proof. intros H. unfold get. by rewrite H. Qed.

Lemma record_marker_plain line index groups g :
  getGroup line = Some g -> inherited g = None ->
  record_marker line index groups
  = ret (<[g := default [] (groups !! g) ++ [index]]> groups).
Proof.
  intros Hg Hplain. unfold record_marker.
  rewrite (getGroup_includes _ _ Hg), Hg, (get_plain _ _ Hplain).
  by destruct (groups !! g).
Qed.

Lemma record_marker_none line index groups :
  getGroup line = None -> record_marker line index groups = ret groups.
Proof. intros Hg. unfold record_marker. rewrite Hg. by destruct (includes _ _). Qed.

(** On a file whose marker names are plain the loop of [extractGroups]
    ends without an exception, and the queue of every name holds the
    positions of its marker lines in file order, behind what it held
    before. *)
Lemma extractGroups_from_positions content : forall index groups,
  names_are_plain content = true ->
  exists groups',
    extractGroups_from content index groups = ret groups'
    /\ forall name,
         groups' !! name
         = match marker_positions name content index with
           | [] => groups !! name
           | ps => Some (default [] (groups !! name) ++ ps)
           end.
Proof.
  induction content as [|line rest IH]; intros index groups Hplain.
  - exists groups. by split.
  - cbn [names_are_plain forallb] in Hplain.
    apply andb_true_iff in Hplain as [Hline Hrest].
    cbn [extractGroups_from marker_positions]. unfold is_marker_of.
    destruct (getGroup line) as [g|] eqn:Hg.
    + apply bool_decide_eq_true in Hline.
      rewrite (record_marker_plain _ _ _ _ Hg Hline), bind_ret_l.
      destruct (IH (S index) (<[g := default [] (groups !! g) ++ [index]]> groups) Hrest)
        as (groups' & -> & Hq).
      exists groups'. split; [done|]. intros name. rewrite Hq.
      destruct (decide (g = name)) as [->|Hne].
      * rewrite bool_decide_eq_true_2 by done. rewrite lookup_insert_eq. simpl.
        destruct (marker_positions name rest (S index)); [done|].
        by rewrite <- app_assoc.
      * rewrite bool_decide_eq_false_2 by congruence.
        by rewrite lookup_insert_ne.
    + rewrite (record_marker_none _ _ _ Hg), bind_ret_l.
      destruct (IH (S index) groups Hrest) as (groups' & -> & Hq).
      exists groups'. split; [done|]. intros name. rewrite Hq.
      by rewrite bool_decide_eq_false_2.
Qed.

Lemma extractGroups_positions content :
  names_are_plain content = true ->
  exists groups,
    extractGroups content = ret groups
    /\ forall name,
         groups !! name
         = match marker_positions name content 0 with
           | [] => None
           | ps => Some ps
           end.
Proof.
  intros Hplain.
  destruct (extractGroups_from_positions content 0%nat ∅ Hplain) as (groups & H & Hq).
  exists groups. split; [done|]. intros name. rewrite Hq, lookup_empty.
  by destruct (marker_positions name content 0).
Qed.

(** X2.  The marker index of a file none of whose marker lines names a
    member of [Object.prototype]: it is built without an exception, a
    name has a queue exactly when it has a marker line, and the queue is
    the list of the positions of its marker lines in file order. *)
Theorem marker_index_in_file_order (content : list jstring) :
  names_are_plain content = true ->
  exists groups,
    extractGroups content = ret groups
    /\ forall name,
         groups !! name
         = match marker_positions name content 0 with
           | [] => None
           | ps => Some ps
           end.
Proof. apply extractGroups_positions. Qed.

(** A reference that finds at least two positions uses up the first two
    and prints nothing. *)
Lemma replay_element_pair content groups name p q rest :
  inherited name = None ->
  groups !! name = Some (p :: q :: rest) ->
  replay_element content groups (group name)
  = ret (slice content (S p) (Some q), <[name := rest]> groups).
Proof.
  intros Hplain Hq. unfold replay_element.
  by rewrite (get_plain _ _ Hplain), Hq.
Qed.

Lemma replay_texts content lines : forall elements groups,
  replay content (map text lines ++ elements) groups
  = (segs <- replay content elements groups ;;
     ret (map (fun line => [line]) lines ++ segs)).
Proof.
  induction lines as [|line lines IH]; intros elements groups.
  - cbn [map app]. by rewrite bind_ret_r.
  - cbn [map app replay]. unfold replay_element at 1. rewrite bind_ret_l.
    cbn [fst snd]. rewrite IH, bind_assoc. apply bind_ext. intros segs.
    by rewrite bind_ret_l.
Qed.

Lemma concat_singletons {A} (l : list A) : concat (map (fun x => [x]) l) = l.
Proof. induction l as [|x l IH]; simpl; [done|]. by rewrite IH. Qed.

Lemma marker_positions_app name l1 l2 index :
  marker_positions name (l1 ++ l2) index
  = marker_positions name l1 index ++ marker_positions name l2 (index + length l1)%nat.
Proof.
  revert index. induction l1 as [|line l1 IH]; intros index; cbn [app marker_positions length].
  - by rewrite Nat.add_0_r.
  - rewrite IH. replace (S index + length l1)%nat with (index + S (length l1))%nat by lia.
    by destruct (is_marker_of name line).
Qed.

Lemma marker_positions_none name content index :
  forallb (fun line => negb (is_marker_of name line)) content = true ->
  marker_positions name content index = [].
Proof.
  revert index. induction content as [|line rest IH]; intros index H; [done|].
  simpl in H. apply andb_true_iff in H as [Hline Hrest].
  cbn [marker_positions]. apply negb_true_iff in Hline. rewrite Hline. by apply IH.
Qed.

(** X22.  Round trip.  For a file made of a marker line of a group with
    a plain name, content lines none of which is a marker line of that
    group and none of which names a member of [Object.prototype], and a
    second marker line of the group, the template with the one reference
    to the group returns the content lines joined with a line feed, and
    prints nothing. *)
Theorem round_trip (name opening closing : jstring) (content : list jstring) :
  inherited name = None ->
  is_marker_of name opening = true ->
  is_marker_of name closing = true ->
  forallb (fun line => negb (is_marker_of name line)) content = true ->
  names_are_plain content = true ->
  transformDoc (opening :: content ++ [closing]) [group name] = ret (join LF content).
Proof.
  intros Hname Hopen Hclose Hcontent Hplain.
  assert (Hfile : names_are_plain (opening :: content ++ [closing]) = true).
  { unfold names_are_plain in *. cbn [forallb]. rewrite forallb_app, Hplain.
    apply bool_decide_eq_true in Hopen, Hclose. cbn [forallb].
    rewrite Hopen, Hclose. by rewrite bool_decide_eq_true_2. }
  destruct (extractGroups_positions _ Hfile) as (groups & Hgroups & Hq).
  specialize (Hq name). cbn [marker_positions] in Hq.
  rewrite Hopen, marker_positions_app in Hq.
  rewrite (marker_positions_none _ _ _ Hcontent) in Hq.
  cbn [marker_positions app] in Hq. rewrite Hclose in Hq.
  unfold transformDoc. rewrite Hgroups, bind_ret_l. cbn [replay].
  rewrite (replay_element_pair _ _ _ _ _ _ Hname Hq), !bind_ret_l.
  cbn [fst snd concat]. rewrite app_nil_r. do 2 f_equal.
  unfold slice. rewrite skipn_cons, drop_0.
  replace (1 + length content - 1)%nat with (length content) by lia.
  by rewrite take_app_length.
Qed.

Lemma round_trip_witness :
  transformDoc
    [js "<!-- group a -->"; js "x"; js "// group b"; []; js "y"; js "<!-- group a -->"]
    [group (js "a")]
  = ret (js "x" ++ LF ++ js "// group b" ++ LF ++ LF ++ js "y").
Proof.
  exact (round_trip (js "a") (js "<!-- group a -->") (js "<!-- group a -->")
           [js "x"; js "// group b"; []; js "y"]
           eq_refl eq_refl eq_refl eq_refl eq_refl).
Defined.

(** C6.  A file of the shape of the round trip, a marker line of [a],
    content lines and a second marker line of [a], in which a content
    line names a member of [Object.prototype]: building the index throws
    at that line, so the content between the two marker lines is not
    returned. *)
Theorem round_trip_inherited_name_inside :
  transformDoc
    [js "<!-- group a -->"; js "class A {"; js "  // group constructor"; js "}";
     js "<!-- group a -->"]
    [group (js "a")]
  = ([], Throw TypeError)
  /\ is_marker_of (js "a") (js "<!-- group a -->") = true
  /\ forallb (fun line => negb (is_marker_of (js "a") line))
       [js "class A {"; js "  // group constructor"; js "}"] = true.
Proof. repeat split; by vm_compute. Qed.

(** X1.  Two pairs of markers of one group with a plain name, in a file
    whose marker names are plain, and a template of text lines with two
    references to the group: the first reference gets the lines between
    the first and the second marker, the second those between the third
    and the fourth, and nothing is printed. *)
Theorem two_pairs_in_file_order (name : jstring) (content : list jstring)
    (p1 p2 p3 p4 : nat) (t1 t2 t3 : list jstring) :
  inherited name = None ->
  names_are_plain content = true ->
  marker_positions name content 0 = [p1; p2; p3; p4] ->
  transformDoc content
    (map text t1 ++ group name :: map text t2 ++ group name :: map text t3)
  = ret (join LF (t1 ++ slice content (S p1) (Some p2) ++
                  t2 ++ slice content (S p3) (Some p4) ++ t3)).
Proof.
  intros Hname Hplain Hpos.
  destruct (extractGroups_positions _ Hplain) as (groups & Hgroups & Hq).
  specialize (Hq name). rewrite Hpos in Hq.
  unfold transformDoc. rewrite Hgroups, bind_ret_l.
  rewrite replay_texts. cbn [replay].
  rewrite (replay_element_pair _ _ _ _ _ _ Hname Hq), bind_ret_l. cbn [fst snd].
  rewrite replay_texts. cbn [replay].
  rewrite (replay_element_pair content _ name p3 p4 [] Hname) by apply lookup_insert_eq.
  rewrite bind_ret_l. cbn [fst snd].
  rewrite <- (app_nil_r (map text t3)), replay_texts. cbn [replay].
  rewrite !bind_ret_l.
  rewrite !concat_app. cbn [concat]. rewrite !concat_app. cbn [concat].
  rewrite !concat_app, !concat_singletons. cbn [concat].
  by rewrite !app_nil_r.
Qed.

(** C5.  A group named like a member of [Object.prototype]: the four
    marker lines form two pairs and the template refers to the group
    twice, but building the index throws at the first marker line. *)
Theorem inherited_name_breaks_index :
  extractLines LF inline
    (js "// group constructor" ++ LF ++ js "a" ++ LF ++ js "// group constructor" ++ LF ++
     js "// group constructor" ++ LF ++ js "b" ++ LF ++ js "// group constructor")
    None true None
    (js "// group constructor" ++ LF ++ js "// group constructor") false
  = ([], Throw TypeError).
Proof. by vm_compute. Qed.

(** ** The mode flag *)

(** C3, as the code has it.  The mode is group (inline) exactly when the
    annotation contains the text [inline] anywhere, and classic exactly
    when it does not. *)
Theorem mode_is_substring_test (annotation : option jstring) :
  (mode_of annotation = inline <->
   exists before after, default [] annotation = before ++ js "inline" ++ after)
  /\
  (mode_of annotation = classic <->
   ~ exists before after, default [] annotation = before ++ js "inline" ++ after).
Proof.
  unfold mode_of. rewrite <- includes_infix.
  destruct (includes _ _); split; split; try done; intros H; by destruct H.
Qed.

(** C3, as stated, fails: this annotation has the single token
    [file=./inline.js], no separate token [inline], and its mode is
    group. *)
Lemma mode_flag_inside_path :
  has_token (js "inline") (js "file=./inline.js") = false
  /\ mode_of (Some (js "file=./inline.js")) = inline.
Proof. split; by vm_compute. Qed.

(** ** Tokens of the annotation *)

Lemma splitMeta_scan_token s : forall prev p t,
  In t (splitMeta_scan prev p s) ->
  (exists s1 s2, s = s1 ++ s2 /\ t = p ++ s1) \/
  (exists a b, s = a ++ 32 :: t ++ b).
Proof.
  induction s as [|c s IH]; intros prev p t; simpl.
  - intros [<-|[]]. left. exists [], []. split; [done|by rewrite app_nil_r].
  - destruct ((c =? 32) && _) eqn:Hsplit.
    + apply andb_true_iff in Hsplit as [Hc _]. apply N.eqb_eq in Hc as ->.
      intros [<-|Hin].
      * left. exists [], (32 :: s). split; [done|by rewrite app_nil_r].
      * right. apply IH in Hin as [(s1 & s2 & -> & ->)|(a & b & ->)].
        -- by exists [], s2.
        -- by exists (32 :: a), b.
    + intros Hin. apply IH in Hin as [(s1 & s2 & -> & ->)|(a & b & ->)].
      * left. exists (c :: s1), s2. split; [done|by rewrite <- app_assoc].
      * right. by exists (c :: a), b.
Qed.

Lemma token_begins_here pre boundary rest :
  boundary = true -> token_begins pre boundary (pre ++ rest) = true.
Proof.
  intros ->. destruct (pre ++ rest) eqn:E; simpl; rewrite <- E, startsWith_app; done.
Qed.

Lemma token_begins_behind pre a c rest : forall boundary,
  is_whitespace c = true ->
  token_begins pre boundary (a ++ c :: pre ++ rest) = true.
Proof.
  intros boundary Hc. revert boundary.
  induction a as [|x a IH]; intros boundary; simpl.
  - rewrite Hc, token_begins_here by done. apply orb_true_r.
  - rewrite IH. apply orb_true_r.
Qed.

(** A token of the code, split at unescaped spaces, that begins with
    [pre] is the beginning of a whitespace-delimited token. *)
Lemma splitMeta_token_begins pre annotation t :
  In t (splitMeta annotation) -> startsWith t pre = true ->
  has_token_beginning pre annotation = true.
Proof.
  intros Hin Hpre. apply startsWith_prefix in Hpre as [rest ->].
  apply splitMeta_scan_token in Hin as [(s1 & s2 & -> & E)|(a & b & ->)].
  - simpl in E. subst s1. rewrite <- app_assoc. by apply token_begins_here.
  - rewrite <- app_assoc. by apply token_begins_behind.
Qed.

Lemma find_fileMeta_None annotation :
  has_token_beginning (js "file=") annotation = false ->
  List.find (fun tok => startsWith tok (js "file=")) (splitMeta annotation) = None.
Proof.
  intros Hno.
  destruct (List.find _ _) as [t|] eqn:Hfind; [|done].
  apply find_some in Hfind as [Hin Hpre].
  rewrite (splitMeta_token_begins _ _ _ Hin Hpre) in Hno. discriminate.
Qed.


(** ** The directive expression *)

Lemma span_while_app f d r :
  forallb f d = true ->
  match r with [] => True | c :: _ => f c = false end ->
  span_while f (d ++ r) = d.
Proof.
  intros Hd Hr. induction d as [|c d IH]; simpl in *.
  - destruct r as [|c r]; [done|]. simpl. by rewrite Hr.
  - apply andb_true_iff in Hd as [-> Hd]. by rewrite IH.
Qed.

Lemma span_while_spec f s :
  s = span_while f s ++ drop (length (span_while f s)) s
  /\ forallb f (span_while f s) = true.
Proof.
  induction s as [|c s [IH1 IH2]]; simpl; [done|].
  destruct (f c) eqn:Hc; simpl; [|done].
  rewrite Hc, IH2. split; [by rewrite <- IH1|done].
Qed.

Lemma match_L_digits_app d r :
  is_numeral d = true ->
  match r with [] => True | c :: _ => is_digit c = false end ->
  match_L_digits (76 :: d ++ r) = Some (d, r).
Proof.
  intros Hd Hr. apply andb_true_iff in Hd as [Hne Hd].
  unfold match_L_digits. rewrite (span_while_app _ _ _ Hd Hr).
  destruct d as [|c d]; [done|]. by rewrite drop_app_length.
Qed.

Lemma match_L_digits_Some s d r :
  match_L_digits s = Some (d, r) -> s = 76 :: d ++ r /\ forallb is_digit d = true.
Proof.
  unfold match_L_digits. destruct s as [|c s]; [done|].
  destruct c as [|c]; [done|].
  destruct (decide (c = 76%positive)) as [->|Hc].
  - destruct (span_while_spec is_digit s) as [Hs Hd].
    destruct (span_while is_digit s) as [|x d'] eqn:E; [done|].
    intros [= <- <-]. split; [|done]. f_equal. exact Hs.
  - do 7 (destruct c as [c|c|]; try done).
Qed.

Lemma match_tail_range dn dm :
  is_numeral dn = true -> is_numeral dm = true ->
  match_tail (js "#L" ++ dn ++ js "-L" ++ dm) = Some (Some dn, true, Some dm).
Proof.
  intros Hn Hm. change (js "#L" ++ dn ++ js "-L" ++ dm) with (35 :: 76 :: dn ++ 45 :: 76 :: dm).
  unfold match_tail. rewrite (match_L_digits_app dn (45 :: 76 :: dm) Hn) by done.
  rewrite <- (app_nil_r dm) at 1. by rewrite (match_L_digits_app dm [] Hm).
Qed.

Lemma digits_no_hash d : forallb is_digit d = true -> Forall (fun c => c <> 35) d.
Proof.
  intros H. apply Forall_forall. intros c Hc ->.
  rewrite forallb_forall in H. specialize (H 35).
  rewrite <- list_elem_of_In in H. by specialize (H Hc).
Qed.

(** What [match_tail] accepts begins with the only [#] it contains. *)
Lemma match_tail_one_hash s r :
  match_tail s = Some r -> s = [] \/ exists t, s = 35 :: t /\ Forall (fun c => c <> 35) t.
Proof.
  unfold match_tail. destruct s as [|c s]; [by left|]. right.
  destruct c as [|c]; [done|].
  destruct (decide (c = 35%positive)) as [->|Hc];
    [|by do 7 (destruct c as [c|c|]; try done)].
  exists s. split; [done|].
  destruct (match_L_digits s) as [[from r1]|] eqn:Hfrom.
  - apply match_L_digits_Some in Hfrom as [-> Hd].
    apply digits_no_hash in Hd.
    assert (Htail : forall r2, (r2 = [] \/ exists to, match_L_digits r2 = Some (to, []))
                               -> Forall (fun c => c <> 35) r2).
    { intros r2 [->|[to Hto]]; [done|].
      apply match_L_digits_Some in Hto as [-> Hd2]. apply digits_no_hash in Hd2.
      rewrite app_nil_r. by constructor. }
    apply Forall_cons; split; [done|]. apply Forall_app; split; [done|].
    destruct r1 as [|c1 r1]; [done|].
    destruct (decide (c1 = 45)) as [->|Hc1].
    + apply Forall_cons; split; [done|]. apply Htail.
      destruct r1 as [|c2 r1]; [by left|]. right.
      destruct (match_L_digits (c2 :: r1)) as [[to [|? ?]]|]; try done. by exists to.
    + apply Htail. right.
      assert (E : (let '(dash, r2) :=
                     match c1 :: r1 with 45 :: r2 => (true, r2) | _ => (false, c1 :: r1) end in
                   match r2 with
                   | [] => Some (Some from, dash, None)
                   | _ => match match_L_digits r2 with
                          | Some (to, []) => Some (Some from, dash, Some to)
                          | _ => None
                          end
                   end)
                  = match match_L_digits (c1 :: r1) with
                    | Some (to, []) => Some (Some from, false, Some to)
                    | _ => None
                    end).
      { destruct c1 as [|c1]; [done|].
        do 7 (destruct c1 as [c1|c1|]; try done). }
      rewrite E in H. clear E.
      destruct (match_L_digits (c1 :: r1)) as [[to [|? ?]]|]; try done. by exists to.
  - destruct s; [done|]. done.
Qed.

Lemma match_tail_behind_path x rest :
  x <> [] -> match_tail (x ++ 35 :: rest) = None.
Proof.
  intros Hx. destruct (match_tail (x ++ 35 :: rest)) as [r|] eqn:E; [|done].
  apply match_tail_one_hash in E as [E|(t & E & Ht)].
  - by destruct x.
  - destruct x as [|c x]; [done|]. simpl in E. injection E as -> <-.
    apply Forall_app in Ht as [_ Ht]. by inversion Ht.
Qed.

Lemma match_path_app x : forall path t from dash to,
  forallb (fun c => negb (is_line_terminator c)) x = true ->
  match_tail (35 :: t) = Some (from, dash, to) ->
  match_path path (x ++ 35 :: t)
  = Some {| g_path := path ++ x; g_from := from; g_dash := dash; g_to := to |}.
Proof.
  induction x as [|c x IH]; intros path t from dash to Hx Ht.
  - cbn [app match_path]. rewrite Ht. by rewrite app_nil_r.
  - change ((c :: x) ++ 35 :: t) with (c :: (x ++ 35 :: t)). cbn [match_path].
    change (c :: (x ++ 35 :: t)) with ((c :: x) ++ 35 :: t).
    rewrite match_tail_behind_path by done.
    simpl in Hx. apply andb_true_iff in Hx as [Hc Hx].
    apply negb_true_iff in Hc. rewrite Hc.
    rewrite (IH _ _ _ _ _ Hx Ht). by rewrite <- app_assoc.
Qed.

Lemma exec_fileMeta_directive path t from dash to :
  is_path path = true ->
  match_tail (35 :: t) = Some (from, dash, to) ->
  exec_fileMeta (js "file=" ++ path ++ 35 :: t)
  = Some {| g_path := path; g_from := from; g_dash := dash; g_to := to |}.
Proof.
  intros Hp Ht. apply andb_true_iff in Hp as [Hne Hp].
  unfold exec_fileMeta. rewrite startsWith_app.
  change (drop 5 (js "file=" ++ path ++ 35 :: t)) with (path ++ 35 :: t).
  destruct path as [|c x]; [done|]. simpl in Hp.
  apply andb_true_iff in Hp as [Hc Hx]. apply negb_true_iff in Hc.
  cbn [app]. rewrite Hc. by rewrite (match_path_app x [c] t from dash to Hx Ht).
Qed.



(** The number 0 is no line number: [fromLine || 1] and
    [else if (toLine)] read a zero as an absent number, in every mode. *)
Lemma zero_reads_as_absent (EOL : jstring) (mode : Mode) (content : jstring)
    (fromLine : option N) (hasDash : bool) (toLine : option N) (oldValue : jstring)
    (preserveTrailingNewline : bool) :
  extractLines EOL mode content (Some 0) hasDash toLine oldValue preserveTrailingNewline
  = extractLines EOL mode content None hasDash toLine oldValue preserveTrailingNewline
  /\ extractLines EOL mode content fromLine hasDash (Some 0) oldValue preserveTrailingNewline
     = extractLines EOL mode content fromLine hasDash None oldValue preserveTrailingNewline.
Proof. by destruct mode. Qed.

(** ** The orchestrator *)

Lemma visit_codes_app EOL path_sep path_isAbsolute path_resolve path_relative fs
    stripIndent options root file (codes1 codes2 : list Code) :
  visit_codes EOL path_sep path_isAbsolute path_resolve path_relative fs stripIndent
    options root file (codes1 ++ codes2)
  = (rs1 <- visit_codes EOL path_sep path_isAbsolute path_resolve path_relative fs
              stripIndent options root file codes1 ;;
     rs2 <- visit_codes EOL path_sep path_isAbsolute path_resolve path_relative fs
              stripIndent options root file codes2 ;;
     ret (rs1 ++ rs2)).
Proof.
  induction codes1 as [|node codes1 IH]; cbn [visit_codes app].
  - rewrite bind_ret_l. cbn [app]. by rewrite bind_ret_r.
  - rewrite IH, !bind_assoc. apply bind_ext. intros r.
    rewrite !bind_assoc. apply bind_ext. intros rs1.
    rewrite bind_assoc, bind_ret_l. apply bind_ext. intros rs2.
    by rewrite bind_ret_l.
Qed.

Lemma match_path_nonempty rest : forall path res,
  match_path path rest = Some res -> path <> [] -> g_path res <> [].
Proof.
  induction rest as [|c rest IH]; intros path res; cbn [match_path].
  - simpl. intros [= E] Hne. by subst res.
  - destruct (match_tail (c :: rest)) as [[[from dash] to]|].
    + intros [= E] Hne. by subst res.
    + destruct (is_line_terminator c); [done|].
      intros H _. apply (IH _ _ H). by destruct path.
Qed.

Lemma exec_fileMeta_path_nonempty fileMeta res :
  exec_fileMeta fileMeta = Some res -> g_path res <> [].
Proof.
  unfold exec_fileMeta. destruct (startsWith _ _); [|done].
  destruct (drop 5 fileMeta) as [|c rest]; [done|].
  destruct (is_line_terminator c); [done|].
  intros H. by apply (match_path_nonempty _ _ _ H).
Qed.

Lemma outside_rootDir_names fileAbsPath root :
  includes (outside_rootDir fileAbsPath root) fileAbsPath = true
  /\ includes (outside_rootDir fileAbsPath root) root = true.
Proof.
  unfold outside_rootDir. split; apply includes_infix.
  - exists (js "Attempted to import code from " ++ quote),
      (quote ++ js ", which is outside from the rootDir " ++ quote ++ root ++ quote).
    by rewrite <- !app_assoc.
  - exists (js "Attempted to import code from " ++ quote ++ fileAbsPath ++ quote ++
            js ", which is outside from the rootDir " ++ quote), quote.
    by rewrite <- !app_assoc.
Qed.

Section Orchestrator.

Variables EOL path_sep : jstring.
Variable path_isAbsolute : jstring -> bool.
Variables path_resolve path_relative : jstring -> jstring -> jstring.
Variable fs : jstring -> option jstring.
Variable stripIndent : jstring -> jstring.
Variable options : CodeImportOptions.

Local Abbreviation visit :=
  (visit_code EOL path_sep path_isAbsolute path_resolve path_relative fs stripIndent options).
Local Abbreviation visit_all :=
  (visit_codes EOL path_sep path_isAbsolute path_resolve path_relative fs stripIndent options).
Local Abbreviation pass :=
  (transformer EOL path_sep path_isAbsolute path_resolve path_relative fs stripIndent options).

(** C9.  A code block whose annotation has no whitespace-delimited token
    that begins with [file=] (an absent annotation included) is skipped:
    its iteration causes no event, so no file is read, throws nothing,
    and leaves the node as it is; the loop over any list of nodes that
    contains it goes on as if it were not there. *)
Theorem non_directive_is_skipped (root : jstring) (file : VFile) (node : Code) :
  has_token_beginning (js "file=") (default [] (meta node)) = false ->
  visit root file node = ret (node, None)
  /\ forall before after,
       visit_all root file (before ++ node :: after)
       = (rs1 <- visit_all root file before ;;
          rs2 <- visit_all root file after ;;
          ret (rs1 ++ (node, None) :: rs2)).
Proof.
  intros Hno.
  assert (Hskip : visit root file node = ret (node, None)).
  { unfold visit_code. by rewrite (find_fileMeta_None _ Hno). }
  split; [done|]. intros before after.
  rewrite visit_codes_app. apply bind_ext. intros rs1.
  cbn [visit_codes]. rewrite Hskip, bind_ret_l, bind_assoc.
  apply bind_ext. intros rs2. by rewrite bind_ret_l.
Qed.

(** X23.  The check of the root.  A directive is given by the token the
    loop finds, the directory of the document and the match of the
    directive expression.  When the location of its resolved path relative
    to the root begins with [..] followed by the separator, or is
    absolute:
    - with [allowImportingFromOutside] false the iteration throws the
      error that names the resolved path and the root before any read,
      and so does the pass once the nodes before it are done;
    - with the flag true the check is not made and the read of the
      resolved path is issued. *)
Theorem sandbox_check (root : jstring) (file : VFile) (node : Code)
    (fileMeta dir : jstring) (res : Groups) :
  List.find (fun tok => startsWith tok (js "file=")) (splitMeta (default [] (meta node)))
    = Some fileMeta ->
  dirname file = Some dir -> dir <> [] ->
  exec_fileMeta fileMeta = Some res ->
  let fileAbsPath := path_resolve dir (unescapeSpaces (replaceRootDir (g_path res) root)) in
  let relativePath := path_relative root fileAbsPath in
  startsWith relativePath (js ".." ++ path_sep) = true \/ path_isAbsolute relativePath = true ->
  (allowImportingFromOutside options = false ->
     visit root file node = throw (Error (outside_rootDir fileAbsPath root))
     /\ includes (outside_rootDir fileAbsPath root) fileAbsPath = true
     /\ includes (outside_rootDir fileAbsPath root) root = true
     /\ forall before after t rs,
          visit_all root file before = (t, Normal rs) ->
          pass root (before ++ node :: after) file
          = (t, Throw (Error (outside_rootDir fileAbsPath root))))
  /\
  (allowImportingFromOutside options = true ->
     let job := {| job_path := fileAbsPath;
                   job_mode := mode_of (meta node);
                   job_from := parseInt <$> g_from res;
                   job_dash := g_dash res || bool_decide (parseInt <$> g_from res = None);
                   job_to := parseInt <$> g_to res |} in
     visit root file node =
       if async options
       then (emit (ReadFile fileAbsPath) ;;; ret (node, Some job))
       else (emit (ReadFileSync fileAbsPath) ;;;
             match fs fileAbsPath with
             | None => throw (ReadError fileAbsPath)
             | Some fileContent =>
                 node' <- store_value EOL stripIndent options node job fileContent ;;
                 ret (node', None)
             end)).
Proof.
  intros Hfind Hdir Hdirne Hexec fileAbsPath relativePath Hout.
  pose proof (exec_fileMeta_path_nonempty _ _ Hexec) as Hpath.
  assert (HfileMeta : fileMeta <> []).
  { apply find_some in Hfind as [_ H]. by destruct fileMeta. }
  assert (Hvisit : visit root file node =
    ((if negb (allowImportingFromOutside options)
      then if bool_decide (root = [])
              || startsWith relativePath (js ".." ++ path_sep)
              || path_isAbsolute relativePath
           then throw (Error (outside_rootDir fileAbsPath root))
           else ret tt
      else ret tt) ;;;
     let job := {| job_path := fileAbsPath;
                   job_mode := mode_of (meta node);
                   job_from := parseInt <$> g_from res;
                   job_dash := g_dash res || bool_decide (parseInt <$> g_from res = None);
                   job_to := parseInt <$> g_to res |} in
     if async options
     then (emit (ReadFile fileAbsPath) ;;; ret (node, Some job))
     else (emit (ReadFileSync fileAbsPath) ;;;
           match fs fileAbsPath with
           | None => throw (ReadError fileAbsPath)
           | Some fileContent =>
               node' <- store_value EOL stripIndent options node job fileContent ;;
               ret (node', None)
           end))).
  { unfold visit_code. rewrite Hfind, Hdir, Hexec.
    destruct fileMeta; [done|]. destruct dir; [done|].
    destruct (g_path res) eqn:E; [done|]. reflexivity. }
  split.
  - intros Hflag.
    assert (Hthrow : visit root file node = throw (Error (outside_rootDir fileAbsPath root))).
    { rewrite Hvisit, Hflag. cbn [negb].
      assert (bool_decide (root = []) || startsWith relativePath (js ".." ++ path_sep)
              || path_isAbsolute relativePath = true) as ->.
      { destruct Hout as [-> | ->]; by rewrite ?orb_true_r. }
      apply bind_throw. }
    split; [done|]. split; [apply outside_rootDir_names|].
    split; [apply outside_rootDir_names|].
    intros before after t rs Hbefore. unfold transformer.
    rewrite visit_codes_app, Hbefore. cbn [visit_codes].
    rewrite Hthrow. simpl. by rewrite app_nil_r.
  - intros Hflag job. rewrite Hvisit, Hflag. cbn [negb].
    by rewrite bind_ret_l.
Qed.

(** The same directive when the location of its resolved path relative
    to the root is exactly [..], the parent directory of the root: the
    location does not begin with [..] followed by the separator, so on a
    host on which [..] is not absolute the iteration throws no error for
    it and issues the read, whatever [allowImportingFromOutside] is. *)
Lemma parent_of_root_is_read (root : jstring) (file : VFile) (node : Code)
    (fileMeta dir : jstring) (res : Groups) :
  List.find (fun tok => startsWith tok (js "file=")) (splitMeta (default [] (meta node)))
    = Some fileMeta ->
  dirname file = Some dir -> dir <> [] ->
  exec_fileMeta fileMeta = Some res ->
  let fileAbsPath := path_resolve dir (unescapeSpaces (replaceRootDir (g_path res) root)) in
  path_relative root fileAbsPath = js ".." ->
  root <> [] -> path_sep <> [] -> path_isAbsolute (js "..") = false ->
  let job := {| job_path := fileAbsPath;
                job_mode := mode_of (meta node);
                job_from := parseInt <$> g_from res;
                job_dash := g_dash res || bool_decide (parseInt <$> g_from res = None);
                job_to := parseInt <$> g_to res |} in
  visit root file node =
    if async options
    then (emit (ReadFile fileAbsPath) ;;; ret (node, Some job))
    else (emit (ReadFileSync fileAbsPath) ;;;
          match fs fileAbsPath with
          | None => throw (ReadError fileAbsPath)
          | Some fileContent =>
              node' <- store_value EOL stripIndent options node job fileContent ;;
              ret (node', None)
          end).
Proof.
  intros Hfind Hdir Hdirne Hexec fileAbsPath Hrel Hroot Hsep Habs job.
  pose proof (exec_fileMeta_path_nonempty _ _ Hexec) as Hpath.
  assert (HfileMeta : fileMeta <> []).
  { apply find_some in Hfind as [_ H]. by destruct fileMeta. }
  unfold visit_code. rewrite Hfind, Hdir, Hexec.
  destruct fileMeta; [done|]. destruct dir as [|d dir']; [done|].
  destruct (g_path res) eqn:E; [done|].
  fold fileAbsPath. rewrite Hrel, Habs.
  rewrite bool_decide_eq_false_2 by done.
  destruct path_sep as [|c sep]; [done|].
  assert (startsWith (js "..") (js ".." ++ c :: sep) = false) as -> by reflexivity.
  destruct (allowImportingFromOutside options); cbn [negb orb]; by rewrite bind_ret_l.
Qed.

End Orchestrator.

Lemma non_directive_is_skipped_witness :
  visit_code LF (js "/") toy_isAbsolute toy_resolve toy_relative toy_fs (fun s => s)
    (toy_options false) (js "/root") toy_file
    {| meta := Some (js "js title=file=x"); value := js "let x;" |}
  = ret ({| meta := Some (js "js title=file=x"); value := js "let x;" |}, None).
Proof.
  exact (proj1 (non_directive_is_skipped LF (js "/") toy_isAbsolute toy_resolve
                  toy_relative toy_fs (fun s => s) (toy_options false) (js "/root")
                  toy_file {| meta := Some (js "js title=file=x"); value := js "let x;" |}
                  eq_refl)).
Defined.

Lemma sandbox_check_witness :
  visit_code LF (js "/") toy_isAbsolute toy_resolve toy_relative toy_fs (fun s => s)
    (toy_options false) (js "/root") toy_file
    {| meta := Some (js "js file=../secret"); value := [] |}
  = throw (Error (outside_rootDir (js "/root/../secret") (js "/root")))
  /\
  visit_code LF (js "/") toy_isAbsolute toy_resolve toy_relative toy_fs (fun s => s)
    (toy_options true) (js "/root") toy_file
    {| meta := Some (js "js file=../secret"); value := [] |}
  = ([ReadFileSync (js "/root/../secret")],
     Normal ({| meta := Some (js "js file=../secret"); value := js "top" ++ LF ++ js "secret" |},
             None)).
Proof.
  split.
  - refine (proj1 (proj1 (sandbox_check LF (js "/") toy_isAbsolute toy_resolve toy_relative
                            toy_fs (fun s => s) (toy_options false) (js "/root") toy_file
                            {| meta := Some (js "js file=../secret"); value := [] |}
                            (js "file=../secret") (js "/root")
                            {| g_path := js "../secret"; g_from := None; g_dash := false;
                               g_to := None |}
                            eq_refl eq_refl _ eq_refl (or_introl eq_refl)) eq_refl)).
    discriminate.
  - refine (eq_trans
              (proj2 (sandbox_check LF (js "/") toy_isAbsolute toy_resolve toy_relative
                        toy_fs (fun s => s) (toy_options true) (js "/root") toy_file
                        {| meta := Some (js "js file=../secret"); value := [] |}
                        (js "file=../secret") (js "/root")
                        {| g_path := js "../secret"; g_from := None; g_dash := false;
                           g_to := None |}
                        eq_refl eq_refl _ eq_refl (or_introl eq_refl)) eq_refl)
              eq_refl).
    discriminate.
Defined.

(** C8.  A directive that resolves to the parent directory of the root:
    the location relative to the root is exactly [..], which lies outside
    the root, and with [allowImportingFromOutside] false the pass does not
    throw the error that names the path and the root.  It issues the
    read: of the directory [/], which fails as a read, and, for a root
    that lies below a file, of that file, whose content is imported. *)
Theorem parent_of_root_passes_check :
  posix_relative (js "/root") (posix_resolve (js "/root") (js "..")) = js ".."
  /\ codeImport LF (js "/") posix_isAbsolute posix_resolve posix_relative (js "/root")
       notes_fs (fun s => s) (options_with_root (js "/root"))
       [ {| meta := Some (js "file=.."); value := [] |} ] {| dirname := Some (js "/root") |}
     = ([ReadFileSync (js "/")], Throw (ReadError (js "/")))
  /\ posix_relative (js "/data/notes.txt/sub")
       (posix_resolve (js "/data") (js "notes.txt")) = js ".."
  /\ codeImport LF (js "/") posix_isAbsolute posix_resolve posix_relative (js "/data")
       notes_fs (fun s => s) (options_with_root (js "/data/notes.txt/sub"))
       [ {| meta := Some (js "file=notes.txt"); value := [] |} ]
       {| dirname := Some (js "/data") |}
     = ([ReadFileSync (js "/data/notes.txt")],
        Normal (Returned [ {| meta := Some (js "file=notes.txt"); value := js "private" |} ])).
Proof. repeat split; by vm_compute. Qed.

(** ** The marker index and the replay on examples *)

Lemma marker_index_in_file_order_witness :
  exists groups,
    extractGroups [js "// group a"; js "x"; js "// group b"; js "// group a"]
    = ret groups
    /\ forall name,
         groups !! name
         = match marker_positions name
                   [js "// group a"; js "x"; js "// group b"; js "// group a"] 0 with
           | [] => None
           | ps => Some ps
           end.
Proof.
  exact (marker_index_in_file_order
           [js "// group a"; js "x"; js "// group b"; js "// group a"] eq_refl).
Defined.

Lemma two_pairs_in_file_order_witness :
  transformDoc
    [js "// group s"; js "1"; js "// group s"; js "2"; js "// group s"; js "3"; js "4";
     js "// group s"]
    (map text [js "first"] ++ group (js "s") :: map text [js "second"] ++
     group (js "s") :: map text [])
  = ret (js "first" ++ LF ++ js "1" ++ LF ++ js "second" ++ LF ++ js "3" ++ LF ++ js "4").
Proof.
  exact (two_pairs_in_file_order (js "s")
           [js "// group s"; js "1"; js "// group s"; js "2"; js "// group s"; js "3";
            js "4"; js "// group s"]
           0 2 4 7 [js "first"] [js "second"] [] eq_refl eq_refl eq_refl).
Defined.

(** ** Splitting and joining *)

Lemma join_cons sep x (rest : list jstring) :
  rest <> [] -> join sep (x :: rest) = x ++ sep ++ join sep rest.
Proof. by destruct rest. Qed.

Lemma join_snoc_empty sep (l : list jstring) :
  l <> [] -> join sep (l ++ [[]]) = join sep l ++ sep.
Proof.
  induction l as [|x l IH]; [done|]. intros _.
  destruct l as [|y l].
  - simpl. by rewrite app_nil_r.
  - change ((x :: y :: l) ++ [[]]) with (x :: ((y :: l) ++ [[]])).
    rewrite join_cons by (by destruct l).
    rewrite IH by done. rewrite (join_cons sep x (y :: l)) by done.
    by rewrite <- !app_assoc.
Qed.

Lemma split_scan_join sep fuel : forall p s,
  sep <> [] -> (length s < fuel)%nat ->
  join sep (split_scan fuel sep p s) = p ++ s.
Proof.
  induction fuel as [|fuel IH]; intros p s Hsep Hlen; [lia|].
  destruct s as [|c s]; simpl.
  - by rewrite app_nil_r.
  - destruct (startsWith (c :: s) sep) eqn:Hpre.
    + apply startsWith_prefix in Hpre as [t Ht].
      rewrite Ht, drop_app_length.
      rewrite join_cons by apply split_scan_nonempty.
      rewrite IH; [done|done|].
      apply (f_equal length) in Ht. rewrite length_app in Ht.
      destruct sep; [done|]. simpl in *. lia.
    + rewrite IH by (simpl in Hlen; done || lia). by rewrite <- app_assoc.
Qed.

(** Joining the pieces of a split with the separator gives the string
    back. *)
Lemma split_join (s sep : jstring) :
  sep <> [] -> join sep (split s sep) = s.
Proof. intros Hsep. unfold split. by rewrite split_scan_join by (done || lia). Qed.

Lemma last_snoc_removelast {A} (l : list A) x :
  last l = Some x -> l = removelast l ++ [x].
Proof.
  intros H. destruct l as [|y l _] using rev_ind; [done|].
  rewrite last_snoc in H. injection H as ->. by rewrite removelast_last.
Qed.

Lemma extractLines_whole_preserved (F oldValue : jstring) :
  extractLines LF classic F None true None oldValue true = ret F.
Proof.
  pose proof (split_join F LF ltac:(done)) as Hjoin.
  unfold extractLines, end_line, start_line. cbn [negb andb N.sub N.to_nat].
  rewrite andb_false_r, slice_to_length. by rewrite drop_0, Hjoin.
Qed.

Lemma extractLines_whole_trimmed (F oldValue : jstring) :
  extractLines LF classic F None true None oldValue false
  = ret (if endsWith F LF then take (length F - 1) F else F).
Proof.
  assert (HLF : LF <> []) by done.
  pose proof (split_join F LF HLF) as Hjoin.
  unfold extractLines, end_line, start_line. cbn [negb andb N.sub N.to_nat].
  rewrite andb_true_r. case_bool_decide as Hlast.
  - rewrite slice_to_pred_length, drop_0.
    pose proof (last_snoc_removelast _ _ Hlast) as Hlines.
    destruct (endsWith F LF) eqn:Hends.
    + apply endsWith_suffix in Hends as [G ->].
      rewrite length_app, Nat.add_sub, take_app_length. f_equal.
      destruct (removelast (split (G ++ LF) LF)) as [|x l] eqn:E.
      * rewrite Hlines in Hjoin. simpl in Hjoin. by destruct G.
      * rewrite Hlines, join_snoc_empty in Hjoin by done.
        by apply app_inv_tail in Hjoin.
    + apply (split_last LF HLF LF_unbordered) in Hlast as [-> | H]; [done|congruence].
  - rewrite slice_to_length, drop_0, Hjoin.
    destruct (endsWith F LF) eqn:Hends; [|done].
    exfalso. apply Hlast. apply (split_last LF HLF LF_unbordered). by right.
Qed.

(** X4.  Where the line terminator is a line feed, extracting a whole
    file in classic mode (no line numbers) returns the file content itself
    when [preserveTrailingNewline] is set, and otherwise the content
    without its last code unit when it ends with a line feed. *)
Theorem whole_file_posix (F oldValue : jstring) :
  extractLines LF classic F None true None oldValue true = ret F
  /\ extractLines LF classic F None true None oldValue false
     = ret (if endsWith F LF then take (length F - 1) F else F).
Proof. split; [apply extractLines_whole_preserved|apply extractLines_whole_trimmed]. Qed.

(** ** Single lines and ranges *)

Lemma take_1_drop {A} (l : list A) k :
  take 1 (drop k l) = match l !! k with Some x => [x] | None => [] end.
Proof.
  revert k. induction l as [|x l IH]; intros k.
  - by rewrite drop_nil.
  - destruct k as [|k]; [done|]. apply IH.
Qed.

(** X5.  Without a dash, classic extraction returns exactly the line
    with the number [fromLine], counted from 1 (an absent [fromLine] and 0
    read as 1), and the empty string when there is no such line; [toLine]
    and [preserveTrailingNewline] play no part. *)
Theorem single_line (EOL F : jstring) (fromLine toLine : option N)
    (oldValue : jstring) (preserveTrailingNewline : bool) :
  extractLines EOL classic F fromLine false toLine oldValue preserveTrailingNewline
  = ret (default [] (split F EOL !! (N.to_nat (start_line fromLine) - 1)%nat)).
Proof.
  unfold extractLines, end_line. cbn [negb]. unfold slice.
  assert (Hstart : 1 <= start_line fromLine) by (destruct fromLine as [[|n]|]; simpl; lia).
  replace (N.to_nat (start_line fromLine) - N.to_nat (start_line fromLine - 1))%nat
    with 1%nat by lia.
  replace (N.to_nat (start_line fromLine - 1)) with (N.to_nat (start_line fromLine) - 1)%nat
    by lia.
  rewrite take_1_drop. by destruct (split F EOL !! _).
Qed.

(** X6.  For line numbers [1 <= n <= m] inside the file, classic
    extraction of the range [n] to [m] returns [m - n + 1] lines joined
    with a line feed, the [i]-th of them being line [n + i] of the file. *)
Theorem line_range (EOL F : jstring) (n m : N) (oldValue : jstring)
    (preserveTrailingNewline : bool) :
  1 <= n -> n <= m -> (N.to_nat m <= length (split F EOL))%nat ->
  exists lines,
    extractLines EOL classic F (Some n) true (Some m) oldValue preserveTrailingNewline
    = ret (join LF lines)
    /\ length lines = N.to_nat (m - n + 1)
    /\ forall i, (i < length lines)%nat ->
         lines !! i = split F EOL !! (N.to_nat n - 1 + i)%nat.
Proof.
  intros Hn Hnm Hm.
  exists (take (N.to_nat m - (N.to_nat n - 1)) (drop (N.to_nat n - 1) (split F EOL))).
  split; [|split].
  - unfold extractLines, end_line, start_line. cbn [negb].
    destruct n as [|n]; [lia|]. destruct m as [|m]; [lia|].
    unfold slice.
    replace (N.to_nat (N.pos n - 1)) with (N.to_nat (N.pos n) - 1)%nat by lia.
    reflexivity.
  - rewrite length_take, length_drop. lia.
  - intros i Hi. rewrite length_take in Hi.
    rewrite lookup_take_lt by lia. by rewrite lookup_drop.
Qed.

Lemma line_range_witness :
  exists lines,
    extractLines LF classic (js "a" ++ LF ++ js "b" ++ LF ++ js "c" ++ LF ++ js "d")
      (Some 2) true (Some 3) [] false
    = ret (join LF lines)
    /\ length lines = N.to_nat (3 - 2 + 1)
    /\ forall i, (i < length lines)%nat ->
         lines !! i
         = split (js "a" ++ LF ++ js "b" ++ LF ++ js "c" ++ LF ++ js "d") LF
             !! (N.to_nat 2 - 1 + i)%nat.
Proof.
  refine (line_range LF (js "a" ++ LF ++ js "b" ++ LF ++ js "c" ++ LF ++ js "d")
            2 3 [] false _ _ _); vm_compute; (discriminate || lia).
Defined.

(** ** The forms of a directive *)

Lemma match_tail_not_hash c r : c <> 35 -> match_tail (c :: r) = None.
Proof.
  intros Hc. unfold match_tail. destruct c as [|c]; [done|].
  do 7 (destruct c as [c|c|]; try done).
Qed.

Lemma match_L_digits_not_L c r : c <> 76 -> match_L_digits (c :: r) = None.
Proof.
  intros Hc. unfold match_L_digits. destruct c as [|c]; [done|].
  do 7 (destruct c as [c|c|]; try done).
Qed.

Lemma match_L_digits_numeral s d r :
  match_L_digits s = Some (d, r) -> s = 76 :: d ++ r /\ is_numeral d = true.
Proof.
  intros H. destruct (match_L_digits_Some _ _ _ H) as [-> Hd]. split; [done|].
  unfold is_numeral. rewrite Hd, andb_true_r.
  unfold match_L_digits in H.
  destruct (span_while is_digit (d ++ r)) as [|x d'] eqn:E; [done|].
  injection H as <- _. done.
Qed.

(** Everything [match_tail] accepts is one of the forms of the directive
    expression behind the path. *)
Lemma match_tail_shape s from dash to :
  match_tail s = Some (from, dash, to) ->
  (s = [] /\ from = None /\ dash = false /\ to = None)
  \/ (s = [35] /\ from = None /\ dash = false /\ to = None)
  \/ exists d, from = Some d /\ is_numeral d = true /\
       ((s = 35 :: 76 :: d /\ dash = false /\ to = None)
        \/ (s = 35 :: 76 :: d ++ [45] /\ dash = true /\ to = None)
        \/ exists d', to = Some d' /\ is_numeral d' = true /\
             ((s = 35 :: 76 :: d ++ 45 :: 76 :: d' /\ dash = true)
              \/ (s = 35 :: 76 :: d ++ 76 :: d' /\ dash = false))).
Proof.
  destruct s as [|c r]; [intros [= <- <- <-]; by left|].
  destruct (decide (c = 35)) as [->|Hc]; [|by rewrite match_tail_not_hash].
  unfold match_tail.
  destruct (match_L_digits r) as [[d r1]|] eqn:Hfrom.
  - apply match_L_digits_numeral in Hfrom as [-> Hd]. intros H. right. right.
    exists d.
    destruct r1 as [|c1 r1].
    + injection H as <- <- <-. rewrite app_nil_r. split; [done|]. split; [done|]. by left.
    + destruct (decide (c1 = 45)) as [->|Hc1].
      * destruct r1 as [|c2 r2].
        -- injection H as <- <- <-. split; [done|]. split; [done|]. right. by left.
        -- destruct (match_L_digits (c2 :: r2)) as [[d' r3]|] eqn:Hto; [|done].
           apply match_L_digits_numeral in Hto as [Hr Hd'].
           destruct r3; [|done]. injection H as <- <- <-. rewrite Hr, app_nil_r.
           split; [done|]. split; [done|]. right. right. exists d'.
           split; [done|]. split; [done|]. by left.
      * assert (E : match c1 :: r1 with 45 :: r2 => (true, r2) | _ => (false, c1 :: r1) end
                    = (false, c1 :: r1)).
        { destruct c1 as [|c1]; [done|]. do 7 (destruct c1 as [c1|c1|]; try done). }
        rewrite E in H.
        destruct (match_L_digits (c1 :: r1)) as [[d' r3]|] eqn:Hto; [|done].
        apply match_L_digits_numeral in Hto as [Hr Hd'].
        destruct r3; [|done]. injection H as <- <- <-. rewrite Hr, app_nil_r.
        split; [done|]. split; [done|]. right. right. exists d'.
        split; [done|]. split; [done|]. by right.
  - destruct r; [|done]. intros [= <- <- <-]. right. by left.
Qed.

Lemma numeral_chars (P : N -> Prop) d :
  (forall c, is_digit c = true -> P c) -> is_numeral d = true -> Forall P d.
Proof.
  intros HP Hd. apply andb_true_iff in Hd as [_ Hd].
  apply Forall_forall. intros c Hc. apply HP.
  rewrite forallb_forall in Hd. apply Hd. by apply list_elem_of_In.
Qed.

(** The code units of what [match_tail] accepts: [#], [L], [-] and
    digits. *)
Lemma match_tail_chars (P : N -> Prop) s r :
  P 35 -> P 76 -> P 45 -> (forall c, is_digit c = true -> P c) ->
  match_tail s = Some r -> Forall P s.
Proof.
  intros H35 H76 H45 Hdig H. destruct r as [[from dash] to].
  apply match_tail_shape in H
    as [(-> & _)|[(-> & _)|(d & _ & Hd & [(-> & _)|[(-> & _)|(d' & _ & Hd' & [[-> _]|[-> _]])]])]];
    repeat first [ apply Forall_nil_2 | apply Forall_cons_2 | apply Forall_app_2
                 | by apply numeral_chars | done ].
Qed.

Lemma match_tail_is_path_free s r :
  match_tail s = Some r -> forallb (fun c => negb (is_line_terminator c)) s = true.
Proof.
  intros H. apply forallb_forall. intros c Hc.
  assert (HP : Forall (fun c => negb (is_line_terminator c) = true) s).
  { apply (match_tail_chars _ s r); try done.
    intros x Hx. unfold is_digit, in_range in Hx.
    apply andb_true_iff in Hx as [H1 H2]. apply N.leb_le in H1, H2.
    unfold is_line_terminator.
    assert ((x =? 10) = false) as -> by (apply N.eqb_neq; lia).
    assert ((x =? 13) = false) as -> by (apply N.eqb_neq; lia).
    assert ((x =? 8232) = false) as -> by (apply N.eqb_neq; lia).
    assert ((x =? 8233) = false) as -> by (apply N.eqb_neq; lia). done. }
  rewrite Forall_forall in HP. apply HP. by apply list_elem_of_In.
Qed.

Lemma match_path_whole rest : forall path,
  free_of 35 rest = true ->
  forallb (fun c => negb (is_line_terminator c)) rest = true ->
  match_path path rest
  = Some {| g_path := path ++ rest; g_from := None; g_dash := false; g_to := None |}.
Proof.
  induction rest as [|c rest IH]; intros path Hhash Hterm.
  - simpl. by rewrite app_nil_r.
  - simpl in Hhash, Hterm.
    apply andb_true_iff in Hhash as [Hc Hhash]. apply andb_true_iff in Hterm as [Hct Hterm].
    apply negb_true_iff in Hc, Hct. apply N.eqb_neq in Hc.
    cbn [match_path]. rewrite match_tail_not_hash by done. rewrite Hct.
    rewrite IH by done. by rewrite <- app_assoc.
Qed.

Lemma exec_fileMeta_bare path :
  is_path path = true -> free_of 35 path = true ->
  exec_fileMeta (js "file=" ++ path)
  = Some {| g_path := path; g_from := None; g_dash := false; g_to := None |}.
Proof.
  intros Hp Hhash. apply andb_true_iff in Hp as [Hne Hterm].
  unfold exec_fileMeta. rewrite startsWith_app.
  change (drop 5 (js "file=" ++ path)) with path.
  destruct path as [|c rest]; [done|].
  simpl in Hhash, Hterm.
  apply andb_true_iff in Hhash as [_ Hhash]. apply andb_true_iff in Hterm as [Hc Hterm].
  apply negb_true_iff in Hc. rewrite Hc. by apply match_path_whole.
Qed.

(** X7.  The forms of a directive.  For every path (not empty, free of
    line terminators) and all runs of digits [dn] and [dm], the directive
    expression matches: the path followed by [#], by [#Ln], by [#Ln-], by
    [#Ln-Lm] and by [#LnLm], each with the path whole and the numbers and
    the dash as written; and the bare path when it contains no [#]. *)
Theorem directive_forms (path dn dm : jstring) :
  is_path path = true -> is_numeral dn = true -> is_numeral dm = true ->
  exec_fileMeta (js "file=" ++ path ++ js "#")
  = Some {| g_path := path; g_from := None; g_dash := false; g_to := None |}
  /\ exec_fileMeta (js "file=" ++ path ++ js "#L" ++ dn)
     = Some {| g_path := path; g_from := Some dn; g_dash := false; g_to := None |}
  /\ exec_fileMeta (js "file=" ++ path ++ js "#L" ++ dn ++ js "-")
     = Some {| g_path := path; g_from := Some dn; g_dash := true; g_to := None |}
  /\ exec_fileMeta (js "file=" ++ path ++ js "#L" ++ dn ++ js "-L" ++ dm)
     = Some {| g_path := path; g_from := Some dn; g_dash := true; g_to := Some dm |}
  /\ exec_fileMeta (js "file=" ++ path ++ js "#L" ++ dn ++ js "L" ++ dm)
     = Some {| g_path := path; g_from := Some dn; g_dash := false; g_to := Some dm |}
  /\ (free_of 35 path = true ->
      exec_fileMeta (js "file=" ++ path)
      = Some {| g_path := path; g_from := None; g_dash := false; g_to := None |}).
Proof.
  intros Hp Hn Hm.
  assert (Hn0 : match_L_digits (76 :: dn) = Some (dn, [])).
  { rewrite <- (app_nil_r dn) at 1. by apply match_L_digits_app. }
  assert (Hm0 : match_L_digits (76 :: dm) = Some (dm, [])).
  { rewrite <- (app_nil_r dm) at 1. by apply match_L_digits_app. }
  repeat split.
  - by apply (exec_fileMeta_directive path []).
  - apply (exec_fileMeta_directive path (76 :: dn)); [done|].
    unfold match_tail. by rewrite Hn0.
  - apply (exec_fileMeta_directive path (76 :: dn ++ [45])); [done|].
    unfold match_tail. by rewrite (match_L_digits_app dn [45] Hn).
  - apply (exec_fileMeta_directive path (76 :: dn ++ 45 :: 76 :: dm)); [done|].
    by apply match_tail_range.
  - apply (exec_fileMeta_directive path (76 :: dn ++ 76 :: dm)); [done|].
    unfold match_tail. rewrite (match_L_digits_app dn (76 :: dm) Hn) by done.
    by rewrite Hm0.
  - intros Hhash. by apply exec_fileMeta_bare.
Qed.

Lemma directive_forms_witness :
  exec_fileMeta (js "file=./a b.js#L7-")
  = Some {| g_path := js "./a b.js"; g_from := Some (js "7"); g_dash := true; g_to := None |}.
Proof.
  exact (proj1 (proj2 (proj2 (directive_forms (js "./a b.js") (js "7") (js "0")
                                eq_refl eq_refl eq_refl)))).
Defined.

Lemma match_path_total rest : forall path,
  forallb (fun c => negb (is_line_terminator c)) rest = true ->
  exists res, match_path path rest = Some res
              /\ path `prefix_of` g_path res
              /\ g_path res `prefix_of` path ++ rest.
Proof.
  induction rest as [|c rest IH]; intros path Hterm.
  - eexists. split; [reflexivity|]. simpl. split; [done|]. by rewrite app_nil_r.
  - cbn [match_path].
    destruct (match_tail (c :: rest)) as [[[from dash] to]|].
    + eexists. split; [reflexivity|]. simpl. split; [done|]. by apply prefix_app_r.
    + simpl in Hterm. apply andb_true_iff in Hterm as [Hc Hterm].
      apply negb_true_iff in Hc. rewrite Hc.
      destruct (IH (path ++ [c]) Hterm) as (res & -> & Hpre & Hfull).
      exists res. split; [done|]. split.
      * etrans; [|exact Hpre]. by apply prefix_app_r.
      * by rewrite <- app_assoc in Hfull.
Qed.

Lemma match_path_terminator rest : forall path,
  forallb (fun c => negb (is_line_terminator c)) rest = false ->
  match_path path rest = None.
Proof.
  induction rest as [|c rest IH]; intros path Hterm; [done|].
  cbn [match_path].
  destruct (match_tail (c :: rest)) as [r|] eqn:Htail.
  - apply match_tail_is_path_free in Htail. congruence.
  - destruct (is_line_terminator c) eqn:Hc; [done|].
    apply IH. simpl in Hterm. by rewrite Hc in Hterm.
Qed.

(** X8.  The directive expression fails on a token exactly when the
    token does not begin with [file=], or nothing follows [file=], or a
    line terminator follows it somewhere.  Every other token is matched,
    with a path that is a non-empty prefix of what follows [file=]: a tail
    that is not one of the forms becomes part of the path. *)
Theorem parse_fails_exactly (fileMeta : jstring) :
  (exec_fileMeta fileMeta = None <->
   startsWith fileMeta (js "file=") = false \/ is_path (drop 5 fileMeta) = false)
  /\ forall res, exec_fileMeta fileMeta = Some res ->
       g_path res <> [] /\ g_path res `prefix_of` drop 5 fileMeta.
Proof.
  unfold exec_fileMeta, is_path.
  destruct (startsWith fileMeta (js "file=")); [|split; [by split; [left|]|done]].
  destruct (drop 5 fileMeta) as [|c rest]; [split; [by split; [right|]|done]|].
  cbn [forallb]. rewrite bool_decide_eq_false_2 by done. cbn [negb andb].
  destruct (is_line_terminator c) eqn:Hc; cbn [negb andb].
  { split; [by split; [right|]|done]. }
  destruct (forallb (fun c => negb (is_line_terminator c)) rest) eqn:Hrest.
  - destruct (match_path_total rest [c] Hrest) as (res & Hres & Hpre & Hfull).
    rewrite Hres. split.
    + split; [done|]. by intros [?|?].
    + intros res' [= <-]. split; [|done].
      destruct Hpre as [k ->]. done.
  - rewrite (match_path_terminator rest [c] Hrest). split; [|done].
    split; [by right|done].
Qed.

(** ** Escaped spaces and the root placeholder *)

Lemma unescapeSpaces_other c r :
  c <> 92 -> unescapeSpaces (c :: r) = c :: unescapeSpaces r.
Proof.
  intros Hc. cbn [unescapeSpaces]. destruct c as [|c]; [done|].
  do 7 (destruct c as [c|c|]; try done).
Qed.

Lemma unescapeSpaces_backslash r :
  match r with 32 :: _ => False | _ => True end ->
  unescapeSpaces (92 :: r) = 92 :: unescapeSpaces r.
Proof.
  intros Hr. cbn [unescapeSpaces]. destruct r as [|c r]; [done|].
  destruct c as [|c]; [done|]. do 6 (destruct c as [c|c|]; try done).
Qed.

Lemma escapeSpaces_head p :
  match escapeSpaces p with 32 :: _ => False | _ => True end.
Proof.
  destruct p as [|c p]; [done|]. simpl.
  destruct (c =? 32) eqn:Hc; [done|]. apply N.eqb_neq in Hc.
  destruct c as [|c]; [done|]. do 6 (destruct c as [c|c|]; try done).
Qed.

Lemma unescape_escape p : unescapeSpaces (escapeSpaces p) = p.
Proof.
  induction p as [|c p IH]; [done|]. simpl.
  destruct (c =? 32) eqn:Hc.
  - apply N.eqb_eq in Hc as ->. change (unescapeSpaces (92 :: 32 :: escapeSpaces p))
      with (32 :: unescapeSpaces (escapeSpaces p)). by rewrite IH.
  - apply N.eqb_neq in Hc. destruct (decide (c = 92)) as [->|Hb].
    + rewrite unescapeSpaces_backslash by apply escapeSpaces_head. by rewrite IH.
    + rewrite unescapeSpaces_other by done. by rewrite IH.
Qed.

Lemma splitMeta_scan_no_space u : forall prev p,
  free_of 32 u = true -> splitMeta_scan prev p u = [p ++ u].
Proof.
  induction u as [|c u IH]; intros prev p Hu; simpl.
  - by rewrite app_nil_r.
  - simpl in Hu. apply andb_true_iff in Hu as [Hc Hu].
    apply negb_true_iff in Hc. rewrite Hc. cbn [andb].
    rewrite IH by done. by rewrite <- app_assoc.
Qed.

Lemma splitMeta_scan_escaped q u : forall prev p,
  free_of 32 u = true ->
  splitMeta_scan prev p (escapeSpaces q ++ u) = [p ++ escapeSpaces q ++ u].
Proof.
  induction q as [|c q IH]; intros prev p Hu.
  - by apply splitMeta_scan_no_space.
  - cbn [escapeSpaces]. destruct (c =? 32) eqn:Hc.
    + change ((92 :: 32 :: escapeSpaces q) ++ u) with (92 :: 32 :: (escapeSpaces q ++ u)).
      cbn [splitMeta_scan]. change (92 =? 32) with false. cbn [andb].
      change (32 =? 32) with true. rewrite bool_decide_eq_true_2 by done. cbn [andb negb].
      rewrite IH by done. by rewrite <- !app_assoc.
    + change ((c :: escapeSpaces q) ++ u) with (c :: (escapeSpaces q ++ u)).
      cbn [splitMeta_scan]. rewrite Hc. cbn [andb].
      rewrite IH by done. by rewrite <- !app_assoc.
Qed.

Lemma escapeSpaces_is_path p : is_path p = true -> is_path (escapeSpaces p) = true.
Proof.
  unfold is_path. intros H. apply andb_true_iff in H as [Hne Hterm].
  apply andb_true_iff. split.
  - destruct p as [|c p]; [done|]. simpl. by destruct (c =? 32).
  - clear Hne. induction p as [|c p IH]; [done|].
    simpl in Hterm. apply andb_true_iff in Hterm as [Hc Hterm].
    simpl. destruct (c =? 32); simpl; rewrite ?Hc, IH; done.
Qed.

Lemma splitMeta_scan_free_prefix u rest : forall prev p,
  free_of 32 u = true ->
  exists prev', splitMeta_scan prev p (u ++ rest) = splitMeta_scan prev' (p ++ u) rest.
Proof.
  induction u as [|c u IH]; intros prev p Hu.
  - exists prev. by rewrite app_nil_r.
  - simpl in Hu. apply andb_true_iff in Hu as [Hc Hu]. apply negb_true_iff in Hc.
    cbn [app splitMeta_scan]. rewrite Hc. cbn [andb].
    destruct (IH (Some c) (p ++ [c]) Hu) as [prev' ->].
    exists prev'. by rewrite <- app_assoc.
Qed.

(** X9.  Escaped spaces.  For every path and every tail that is one of
    the forms behind the path, the annotation made of [file=], the path
    with each space escaped by a backslash, and the tail is one token of
    the split at unescaped spaces; that token is the one the loop finds;
    the directive expression matches it with the escaped path whole; and
    unescaping gives the path back. *)
Theorem escaped_path_round_trip (path tail : jstring)
    (from : option jstring) (dash : bool) (to : option jstring) :
  is_path path = true ->
  match_tail (35 :: tail) = Some (from, dash, to) ->
  let fileMeta := js "file=" ++ escapeSpaces path ++ 35 :: tail in
  splitMeta fileMeta = [fileMeta]
  /\ List.find (fun tok => startsWith tok (js "file=")) (splitMeta fileMeta) = Some fileMeta
  /\ exec_fileMeta fileMeta
     = Some {| g_path := escapeSpaces path; g_from := from; g_dash := dash; g_to := to |}
  /\ unescapeSpaces (escapeSpaces path) = path.
Proof.
  intros Hp Htail fileMeta.
  assert (Hfree : free_of 32 (35 :: tail) = true).
  { apply forallb_forall. intros c Hc.
    assert (HP : Forall (fun c => negb (c =? 32) = true) (35 :: tail)).
    { apply (match_tail_chars _ (35 :: tail) (from, dash, to) eq_refl eq_refl eq_refl);
        [|exact Htail].
      intros x Hx. unfold is_digit, in_range in Hx.
      apply andb_true_iff in Hx as [H1 H2]. apply N.leb_le in H1, H2.
      apply negb_true_iff, N.eqb_neq. lia. }
    rewrite Forall_forall in HP. apply HP. by apply list_elem_of_In. }
  assert (Hsplit : splitMeta fileMeta = [fileMeta]).
  { unfold splitMeta, fileMeta.
    destruct (splitMeta_scan_free_prefix (js "file=") (escapeSpaces path ++ 35 :: tail)
                None [] eq_refl) as [prev' ->].
    by rewrite splitMeta_scan_escaped. }
  split; [done|]. split; [|split].
  - rewrite Hsplit. cbn [List.find]. unfold fileMeta. by rewrite startsWith_app.
  - by apply exec_fileMeta_directive; [apply escapeSpaces_is_path|].
  - apply unescape_escape.
Qed.

Lemma escaped_path_round_trip_witness :
  splitMeta (js "file=./my" ++ [92] ++ js " docs/a.js#L2-L4")
  = [js "file=./my" ++ [92] ++ js " docs/a.js#L2-L4"]
  /\ unescapeSpaces (escapeSpaces (js "./my docs/a.js")) = js "./my docs/a.js".
Proof.
  pose proof (escaped_path_round_trip (js "./my docs/a.js") (js "L2-L4")
                (Some (js "2")) true (Some (js "4")) eq_refl eq_refl) as H.
  exact (conj (proj1 H) (proj2 (proj2 (proj2 H)))).
Defined.

Lemma getSubstitution_other matched after c r :
  c <> 36 ->
  getSubstitution matched after (c :: r) = c :: getSubstitution matched after r.
Proof.
  intros Hc. cbn [getSubstitution]. destruct c as [|c]; [done|].
  do 6 (destruct c as [c|c|]; try done).
Qed.

Lemma getSubstitution_plain matched after a r :
  free_of 36 a = true ->
  getSubstitution matched after (a ++ r) = a ++ getSubstitution matched after r.
Proof.
  intros Ha. induction a as [|c a IH]; [done|].
  simpl in Ha. apply andb_true_iff in Ha as [Hc Ha].
  apply negb_true_iff, N.eqb_neq in Hc.
  cbn [app]. rewrite getSubstitution_other by done. by rewrite IH.
Qed.

(** X10.  The root placeholder.  A path that begins with [<rootDir>]
    gets the root in its place when the root contains no dollar sign; a
    doubled dollar sign in the root comes out as a single one; a path
    that does not begin with [<rootDir>] is left as it is, also when
    [<rootDir>] stands further inside. *)
Theorem root_placeholder (rest root a b : jstring) :
  (free_of 36 root = true ->
   replaceRootDir (js "<rootDir>" ++ rest) root = root ++ rest)
  /\ (free_of 36 a = true -> free_of 36 b = true ->
      replaceRootDir (js "<rootDir>" ++ rest) (a ++ js "$$" ++ b) = a ++ js "$" ++ b ++ rest)
  /\ (startsWith rest (js "<rootDir>") = false -> replaceRootDir rest root = rest).
Proof.
  unfold replaceRootDir. rewrite startsWith_app.
  change (drop 9 (js "<rootDir>" ++ rest)) with rest.
  repeat split.
  - intros Hroot. rewrite <- (app_nil_r root) at 1.
    rewrite getSubstitution_plain by done. simpl. by rewrite app_nil_r.
  - intros Ha Hb. rewrite getSubstitution_plain by done.
    change (js "$$" ++ b) with (36 :: 36 :: b). cbn [getSubstitution].
    rewrite <- (app_nil_r b) at 1. rewrite getSubstitution_plain by done.
    simpl. by rewrite app_nil_r, <- !app_assoc.
  - by intros ->.
Qed.

Lemma root_placeholder_witness :
  replaceRootDir (js "<rootDir>/src/a.js") (js "/home/me/docs") = js "/home/me/docs/src/a.js".
Proof.
  exact (proj1 (root_placeholder (js "/src/a.js") (js "/home/me/docs") [] []) eq_refl).
Defined.

(** ** Marker lines and their names *)

Lemma span_while_rest f s :
  match drop (length (span_while f s)) s with
  | [] => True
  | c :: _ => f c = false
  end.
Proof.
  induction s as [|c s IH]; simpl; [done|].
  destruct (f c) eqn:Hc; simpl; [exact IH|exact Hc].
Qed.

Lemma includes_cons c s pat :
  includes (c :: s) pat = startsWith (c :: s) pat || includes s pat.
Proof. reflexivity. Qed.

Lemma getGroup_None_iff line :
  getGroup line = None <-> includes line (js "group ") = false.
Proof.
  induction line as [|c line IH]; [done|].
  cbn [getGroup]. rewrite includes_cons.
  destruct (startsWith (c :: line) (js "group ")); [done|]. exact IH.
Qed.

Lemma getGroup_Some line g :
  getGroup line = Some g ->
  forallb is_group_char g = true
  /\ exists before after,
       line = before ++ js "group " ++ g ++ after
       /\ includes (before ++ js "group") (js "group ") = false
       /\ match after with [] => True | c :: _ => is_group_char c = false end.
Proof.
  revert g. induction line as [|c line IH]; intros g; [done|].
  cbn [getGroup].
  destruct (startsWith (c :: line) (js "group ")) eqn:Hstart.
  - clear IH. apply startsWith_prefix in Hstart as [rest Hrest].
    rewrite Hrest. change (drop 6 (js "group " ++ rest)) with rest.
    intros [= <-].
    destruct (span_while_spec is_group_char rest) as [Hsplit Hall].
    split; [done|].
    exists [], (drop (length (span_while is_group_char rest)) rest).
    split; [|split].
    + cbn [app]. by rewrite <- Hsplit.
    + done.
    + apply span_while_rest.
  - intros Hg. destruct (IH g Hg) as (Hall & before & after & Hline & Hleft & Hafter).
    split; [done|]. exists (c :: before), after. split; [by rewrite Hline|]. split; [|done].
    change ((c :: before) ++ js "group") with (c :: (before ++ js "group")).
    rewrite includes_cons, Hleft, orb_false_r.
    destruct (startsWith (c :: before ++ js "group") (js "group ")) eqn:E; [|done].
    apply startsWith_prefix in E. rewrite <- Hstart. symmetry.
    apply startsWith_prefix. rewrite Hline.
    etrans; [exact E|]. exists (32 :: g ++ after).
    change (js "group " ++ g ++ after) with (js "group" ++ 32 :: g ++ after).
    change ((c :: before ++ js "group") ++ 32 :: g ++ after)
      with (c :: ((before ++ js "group") ++ 32 :: g ++ after)).
    by rewrite <- app_assoc.
Qed.

(** X11.  Marker lines.  A line has a group name exactly when it contains
    the text [group] followed by a space.  The name is then the longest
    run of letters, digits, underscores and hyphens right behind the first
    such place, possibly empty.  A template line is a reference exactly
    when it has a group name, so the test for the bare word [group] that
    precedes the match changes nothing. *)
Theorem marker_lines (line : jstring) :
  (getGroup line = None <-> includes line (js "group ") = false)
  /\ (forall g, getGroup line = Some g ->
        forallb is_group_char g = true
        /\ exists before after,
             line = before ++ js "group " ++ g ++ after
             /\ includes (before ++ js "group") (js "group ") = false
             /\ match after with [] => True | c :: _ => is_group_char c = false end)
  /\ classify line = match getGroup line with
                     | Some g => group g
                     | None => text line
                     end.
Proof.
  split; [apply getGroup_None_iff|]. split; [apply getGroup_Some|].
  unfold classify. destruct (getGroup line) as [g|] eqn:Hg.
  - by rewrite (getGroup_includes _ _ Hg).
  - by destruct (includes line (js "group")).
Qed.

(** ** When the marker index cannot be built *)

Lemma record_marker_keeps_plain line index groups groups' t :
  (forall g, inherited g <> None -> groups !! g = None) ->
  record_marker line index groups = (t, Normal groups') ->
  forall g, inherited g <> None -> groups' !! g = None.
Proof.
  intros Hinv. unfold record_marker.
  destruct (includes line (js "group")); [|by intros [= _ <-]].
  destruct (getGroup line) as [g0|]; [|by intros [= _ <-]].
  unfold get. destruct (groups !! g0) as [q|] eqn:Hq.
  - intros [= _ <-] g Hg. rewrite lookup_insert_ne; [by apply Hinv|].
    intros ->. rewrite (Hinv _ Hg) in Hq. done.
  - destruct (inherited g0) eqn:Hg0; [done|].
    intros [= _ <-] g Hg. rewrite lookup_insert_ne; [by apply Hinv|]. congruence.
Qed.

Lemma extractGroups_from_inherited content : forall index groups,
  (forall g, inherited g <> None -> groups !! g = None) ->
  names_are_plain content = false ->
  extractGroups_from content index groups = ([], Throw TypeError).
Proof.
  induction content as [|line rest IH]; intros index groups Hinv Hplain; [done|].
  cbn [names_are_plain forallb] in Hplain. cbn [extractGroups_from].
  destruct (getGroup line) as [g|] eqn:Hg.
  - case_bool_decide as Hin.
    + rewrite (record_marker_plain _ _ _ _ Hg Hin), bind_ret_l.
      apply IH; [|done]. intros g' Hg'.
      rewrite lookup_insert_ne; [by apply Hinv|congruence].
    + unfold record_marker. rewrite (getGroup_includes _ _ Hg), Hg.
      unfold get. rewrite (Hinv _ Hin).
      by destruct (inherited g).
  - rewrite (record_marker_none _ _ _ Hg), bind_ret_l. by apply IH.
Qed.

(** X12.  Building the marker index throws exactly when some line of the
    file names a member of [Object.prototype] ([constructor],
    [toString], [__proto__] and the others); the exception is a
    [TypeError], and nothing is printed before it. *)
Theorem index_throws_exactly (content : list jstring) :
  (names_are_plain content = false -> extractGroups content = ([], Throw TypeError))
  /\ (names_are_plain content = true ->
      exists groups, extractGroups content = ([], Normal groups)).
Proof.
  split.
  - intros H. by apply extractGroups_from_inherited.
  - intros H. destruct (extractGroups_positions content H) as (groups & Hg & _).
    by exists groups.
Qed.

Lemma index_throws_exactly_witness :
  extractGroups [js "a"; js "// see group toString"; js "b"] = ([], Throw TypeError).
Proof.
  exact (proj1 (index_throws_exactly [js "a"; js "// see group toString"; js "b"]) eq_refl).
Defined.

Lemma marker_positions_elem name content : forall index i,
  i ∈ marker_positions name content index <->
  exists j line, i = (index + j)%nat /\ content !! j = Some line
                 /\ getGroup line = Some name.
Proof.
  induction content as [|l rest IH]; intros index i.
  - simpl. split; [by intros ?%elem_of_nil|]. by intros (j & line & _ & ? & _).
  - cbn [marker_positions]. unfold is_marker_of. case_bool_decide as Hl.
    + rewrite elem_of_cons, IH. split.
      * intros [->|(j & line & -> & Hj & Hline)].
        -- exists 0%nat, l. split; [lia|done].
        -- exists (S j), line. split; [lia|done].
      * intros (j & line & -> & Hj & Hline). destruct j as [|j].
        -- left. lia.
        -- right. exists j, line. split; [lia|done].
    + rewrite IH. split.
      * intros (j & line & -> & Hj & Hline). exists (S j), line. split; [lia|done].
      * intros (j & line & -> & Hj & Hline). destruct j as [|j].
        -- simpl in Hj. congruence.
        -- exists j, line. split; [lia|done].
Qed.

Lemma marker_positions_lower name content : forall index k x,
  marker_positions name content index !! k = Some x -> (index <= x)%nat.
Proof.
  induction content as [|l rest IH]; intros index k x; [done|].
  cbn [marker_positions]. destruct (is_marker_of name l).
  - destruct k as [|k]; simpl.
    + intros [= ->]. lia.
    + intros H. apply IH in H. lia.
  - intros H. apply IH in H. lia.
Qed.

Lemma marker_positions_ascending name content : forall index i j a b,
  (i < j)%nat ->
  marker_positions name content index !! i = Some a ->
  marker_positions name content index !! j = Some b ->
  (a < b)%nat.
Proof.
  induction content as [|l rest IH]; intros index i j a b Hij; [done|].
  cbn [marker_positions]. destruct (is_marker_of name l); [|by apply IH].
  destruct j as [|j]; [lia|]. destruct i as [|i]; simpl.
  - intros [= ->] H. apply marker_positions_lower in H. lia.
  - apply IH. lia.
Qed.

(** X13.  The marker index, line by line.  For a file none of whose
    lines names a member of [Object.prototype], a name has a queue in the
    index exactly when some line carries it; the queue is not empty,
    strictly ascending, and holds a position exactly when the line at that
    position carries the name. *)
Theorem marker_index_exact (content : list jstring) :
  names_are_plain content = true ->
  exists groups,
    extractGroups content = ret groups
    /\ forall name,
         match groups !! name with
         | Some q =>
             q <> []
             /\ (forall i j a b, (i < j)%nat -> q !! i = Some a -> q !! j = Some b ->
                   (a < b)%nat)
             /\ forall i, i ∈ q <->
                  exists line, content !! i = Some line /\ getGroup line = Some name
         | None => forall line, line ∈ content -> getGroup line <> Some name
         end.
Proof.
  intros Hplain.
  destruct (extractGroups_positions content Hplain) as (groups & Hg & Hq).
  exists groups. split; [done|]. intros name. rewrite Hq.
  pose proof (marker_positions_elem name content 0) as Helem.
  pose proof (marker_positions_ascending name content 0) as Hsorted.
  destruct (marker_positions name content 0) as [|p ps] eqn:E.
  - intros line Hin Hline. apply list_elem_of_lookup in Hin as [j Hj].
    assert (H : j ∈ ([] : list nat)); [|by apply elem_of_nil in H].
    apply Helem. exists j, line. done.
  - split; [done|]. split; [done|]. intros i. rewrite Helem. split.
    + intros (j & line & -> & Hj & Hline). by exists line.
    + intros (line & Hj & Hline). by exists i, line.
Qed.

Lemma marker_index_exact_witness :
  exists groups,
    extractGroups [js "// group a"; js "x"; js "// group a"] = ret groups
    /\ forall name,
         match groups !! name with
         | Some q =>
             q <> []
             /\ (forall i j a b, (i < j)%nat -> q !! i = Some a -> q !! j = Some b ->
                   (a < b)%nat)
             /\ forall i, i ∈ q <->
                  exists line, [js "// group a"; js "x"; js "// group a"] !! i = Some line
                               /\ getGroup line = Some name
         | None => forall line, line ∈ [js "// group a"; js "x"; js "// group a"] ->
                                getGroup line <> Some name
         end.
Proof.
  exact (marker_index_exact [js "// group a"; js "x"; js "// group a"] eq_refl).
Defined.

(** ** Templates *)

Lemma split_scan_piece fuel sep : forall p s t,
  In t (split_scan fuel sep p s) -> exists a b, p ++ s = a ++ t ++ b.
Proof.
  induction fuel as [|fuel IH]; intros p s t.
  - intros [<-|[]]. exists [], []. by rewrite app_nil_r.
  - destruct s as [|c s]; simpl.
    + intros [<-|[]]. exists [], []. by rewrite !app_nil_r.
    + destruct (startsWith (c :: s) sep) eqn:Hpre.
      * apply startsWith_prefix in Hpre as [rest Hrest]. rewrite Hrest, drop_app_length.
        intros [<-|Hin].
        -- by exists [], (sep ++ rest).
        -- apply IH in Hin as (a & b & Hab). simpl in Hab.
           exists (p ++ sep ++ a), b. rewrite Hab. by rewrite <- !app_assoc.
      * intros Hin. apply IH in Hin as (a & b & Hab).
        exists a, b. rewrite <- Hab. by rewrite <- app_assoc.
Qed.

Lemma includes_piece s t pat a b :
  s = a ++ t ++ b -> includes s pat = false -> includes t pat = false.
Proof.
  intros -> Hs. destruct (includes t pat) eqn:Ht; [|done].
  apply includes_infix in Ht as (a' & b' & ->).
  rewrite <- Hs. symmetry. apply includes_infix.
  exists (a ++ a'), (b' ++ b). by rewrite <- !app_assoc.
Qed.

Lemma classify_pieces EOL oldValue :
  includes oldValue (js "group ") = false ->
  extractElements EOL oldValue = map text (split oldValue EOL).
Proof.
  intros Hno. unfold extractElements. apply map_ext_in. intros t Hin.
  apply split_scan_piece in Hin as (a & b & Hab). simpl in Hab.
  pose proof (includes_piece _ _ _ _ _ Hab Hno) as Ht.
  apply getGroup_None_iff in Ht. unfold classify. rewrite Ht.
  by destruct (includes t (js "group")).
Qed.

(** X14.  A template without references.  When the prior body of the
    placeholder nowhere contains [group] followed by a space, and no line
    of the file names a member of [Object.prototype], group mode returns
    the lines of the prior body joined with a line feed and prints
    nothing, whatever the file contains and whatever the line numbers
    are; where the line terminator is a line feed that is the prior body
    itself. *)
Theorem template_without_references (EOL content : jstring)
    (fromLine : option N) (hasDash : bool) (toLine : option N) (oldValue : jstring)
    (preserveTrailingNewline : bool) :
  names_are_plain (split content EOL) = true ->
  includes oldValue (js "group ") = false ->
  extractLines EOL inline content fromLine hasDash toLine oldValue preserveTrailingNewline
  = ret (join LF (split oldValue EOL))
  /\ (EOL = LF ->
      extractLines EOL inline content fromLine hasDash toLine oldValue preserveTrailingNewline
      = ret oldValue).
Proof.
  intros Hplain Hno.
  assert (H : extractLines EOL inline content fromLine hasDash toLine oldValue
                preserveTrailingNewline = ret (join LF (split oldValue EOL))).
  { unfold extractLines, transformDoc. rewrite (classify_pieces _ _ Hno).
    destruct (extractGroups_positions _ Hplain) as (groups & -> & _).
    rewrite bind_ret_l.
    rewrite <- (app_nil_r (map text (split oldValue EOL))), replay_texts.
    cbn [replay]. rewrite !bind_ret_l. by rewrite app_nil_r, concat_singletons. }
  split; [done|]. intros ->. rewrite H. by rewrite split_join.
Qed.

Lemma template_without_references_witness :
  extractLines LF inline (js "1" ++ LF ++ js "// group a" ++ LF ++ js "2") None true None
    (js "keep" ++ LF ++ js "groups of lines") false
  = ret (js "keep" ++ LF ++ js "groups of lines").
Proof.
  exact (proj2 (template_without_references LF
                  (js "1" ++ LF ++ js "// group a" ++ LF ++ js "2") None true None
                  (js "keep" ++ LF ++ js "groups of lines") false eq_refl eq_refl) eq_refl).
Defined.

Lemma replay_references content name k : forall groups q,
  inherited name = None ->
  groups !! name = Some q ->
  (2 * k <= length q)%nat ->
  replay content (replicate k (group name)) groups
  = ret (map (interior content) (take k (pair_up q))).
Proof.
  induction k as [|k IH]; intros groups q Hname Hq Hlen; [done|].
  destruct q as [|p [|e rest]]; simpl in Hlen; [lia|lia|].
  cbn [replicate replay].
  rewrite (replay_element_pair _ _ _ _ _ _ Hname Hq), bind_ret_l. cbn [fst snd].
  rewrite (IH (<[name := rest]> groups) rest Hname) by (by rewrite ?lookup_insert_eq || lia).
  by rewrite bind_ret_l.
Qed.

(** X15.  References in turn.  For a file none of whose lines names a
    member of [Object.prototype] and a group with a plain name that has at
    least [2 k] marker lines, a template of [k] references to the group
    returns, without printing anything, the lines strictly between the
    first and the second marker, then those between the third and the
    fourth, and so on: every reference uses up the next two positions. *)
Theorem references_in_turn (content : list jstring) (name : jstring) (k : nat) :
  names_are_plain content = true ->
  inherited name = None ->
  (2 * k <= length (marker_positions name content 0))%nat ->
  transformDoc content (replicate k (group name))
  = ret (join LF (concat (map (interior content)
                            (take k (pair_up (marker_positions name content 0)))))).
Proof.
  intros Hplain Hname Hlen.
  destruct (extractGroups_positions _ Hplain) as (groups & Hgroups & Hq).
  unfold transformDoc. rewrite Hgroups, bind_ret_l.
  destruct k as [|k]; [done|].
  specialize (Hq name).
  destruct (marker_positions name content 0) as [|p ps] eqn:E; [simpl in Hlen; lia|].
  rewrite (replay_references content name (S k) groups (p :: ps) Hname Hq Hlen).
  by rewrite bind_ret_l.
Qed.

Lemma references_in_turn_witness :
  transformDoc
    [js "// group s"; js "1"; js "// group s"; js "2"; js "// group s"; js "3";
     js "// group s"; js "// group s"; js "4"]
    (replicate 2 (group (js "s")))
  = ret (js "1" ++ LF ++ js "3").
Proof.
  refine (eq_trans
            (references_in_turn
               [js "// group s"; js "1"; js "// group s"; js "2"; js "// group s"; js "3";
                js "// group s"; js "// group s"; js "4"]
               (js "s") 2 eq_refl eq_refl _)
            eq_refl).
  vm_compute. lia.
Defined.

(** ** How computations end *)

Lemma bind_Throw_inv {A B} (m : Eff A) (f : A -> Eff B) t e :
  bind m f = (t, Throw e) ->
  m = (t, Throw e)
  \/ exists t1 a t2, m = (t1, Normal a) /\ f a = (t2, Throw e) /\ t = t1 ++ t2.
Proof.
  destruct m as [t1 [a|e1]]; simpl.
  - destruct (f a) as [t2 r] eqn:Hf. intros [= <- ->]. right. by exists t1, a, t2.
  - intros [= <- <-]. by left.
Qed.

Lemma bind_Normal_inv {A B} (m : Eff A) (f : A -> Eff B) t b :
  bind m f = (t, Normal b) ->
  exists t1 a t2, m = (t1, Normal a) /\ f a = (t2, Normal b) /\ t = t1 ++ t2.
Proof.
  destruct m as [t1 [a|e1]]; simpl; [|done].
  destruct (f a) as [t2 r] eqn:Hf. intros [= <- ->]. by exists t1, a, t2.
Qed.

Lemma record_marker_Throw line index groups t e :
  record_marker line index groups = (t, Throw e) -> e = TypeError.
Proof.
  unfold record_marker. destruct (includes _ _); [|done].
  destruct (getGroup line); [|done]. destruct (get groups _); try done.
  by intros [= _ <-].
Qed.

Lemma extractGroups_from_Throw content : forall index groups t e,
  extractGroups_from content index groups = (t, Throw e) -> e = TypeError.
Proof.
  induction content as [|line rest IH]; intros index groups t e; [done|].
  cbn [extractGroups_from]. intros H.
  apply bind_Throw_inv in H as [H|(t1 & groups' & t2 & _ & H & _)].
  - by apply record_marker_Throw in H.
  - by apply IH in H.
Qed.

Lemma replay_element_Throw content groups el t e :
  replay_element content groups el = (t, Throw e) -> e = TypeError.
Proof.
  unfold replay_element. destruct el as [line|name]; [done|].
  destruct (get groups name) as [q|len|].
  - destruct (length q <? 2)%nat; destruct (shift q) as [first q1];
      destruct (shift q1) as [second q2]; done.
  - intros H. apply bind_Throw_inv in H as [H|(t1 & a & t2 & _ & H & _)].
    + destruct len as [n|]; [destruct (n <? 2)%nat|]; done.
    + by injection H as _ <-.
  - by intros [= _ <-].
Qed.

Lemma replay_Throw content elements : forall groups t e,
  replay content elements groups = (t, Throw e) -> e = TypeError.
Proof.
  induction elements as [|el rest IH]; intros groups t e; [done|].
  cbn [replay]. intros H.
  apply bind_Throw_inv in H as [H|(t1 & r & t2 & _ & H & _)].
  - by apply replay_element_Throw in H.
  - apply bind_Throw_inv in H as [H|(t3 & segs & t4 & _ & H & _)]; [|done].
    by apply IH in H.
Qed.

Lemma extractLines_Throw EOL mode content fromLine hasDash toLine oldValue ptn t e :
  extractLines EOL mode content fromLine hasDash toLine oldValue ptn = (t, Throw e) ->
  e = TypeError /\ mode = inline.
Proof.
  unfold extractLines. destruct mode; [done|]. unfold transformDoc, extractGroups.
  intros H. split; [|done].
  apply bind_Throw_inv in H as [H|(t1 & groups & t2 & _ & H & _)].
  - by apply extractGroups_from_Throw in H.
  - apply bind_Throw_inv in H as [H|(t3 & segs & t4 & _ & H & _)]; [|done].
    by apply replay_Throw in H.
Qed.

(** ** The orchestrator, node by node *)

Lemma store_value_async EOL stripIndent b options node job fileContent :
  store_value EOL stripIndent (with_async b options) node job fileContent
  = store_value EOL stripIndent options node job fileContent.
Proof. reflexivity. Qed.

Section Iteration.

Variables EOL path_sep : jstring.
Variable path_isAbsolute : jstring -> bool.
Variables path_resolve path_relative : jstring -> jstring -> jstring.
Variable fs : jstring -> option jstring.
Variable stripIndent : jstring -> jstring.
Variable options : CodeImportOptions.

Local Abbreviation visit :=
  (visit_code EOL path_sep path_isAbsolute path_resolve path_relative fs stripIndent).
Local Abbreviation visit_all :=
  (visit_codes EOL path_sep path_isAbsolute path_resolve path_relative fs stripIndent).
Local Abbreviation pass :=
  (transformer EOL path_sep path_isAbsolute path_resolve path_relative fs stripIndent).

Lemma store_value_Normal node job fileContent t node' :
  store_value EOL stripIndent options node job fileContent = (t, Normal node') ->
  meta node' = meta node.
Proof.
  unfold store_value. intros H.
  apply bind_Normal_inv in H as (t1 & v & t2 & _ & H & _). by injection H as _ <-.
Qed.

Lemma store_value_Throw node job fileContent t e :
  store_value EOL stripIndent options node job fileContent = (t, Throw e) ->
  e = TypeError /\ job_mode job = inline.
Proof.
  unfold store_value. intros H.
  apply bind_Throw_inv in H as [H|(t1 & v & t2 & _ & H & _)]; [|done].
  by apply extractLines_Throw in H.
Qed.

(** The ways one iteration of the loop can go. *)
Lemma visit_code_cases root file node :
  visit options root file node = ret (node, None)
  \/ visit options root file node = throw (Error not_a_vfile)
  \/ (exists tok, visit options root file node = throw (Error (unable_to_parse tok)))
  \/ (exists abs, visit options root file node = throw (Error (outside_rootDir abs root)))
  \/ (exists job,
        async options = true
        /\ visit options root file node = ([ReadFile (job_path job)], Normal (node, Some job)))
  \/ (exists job,
        async options = false
        /\ job_mode job = mode_of (meta node)
        /\ visit options root file node
           = (emit (ReadFileSync (job_path job)) ;;;
              match fs (job_path job) with
              | None => throw (ReadError (job_path job))
              | Some fileContent =>
                  node' <- store_value EOL stripIndent options node job fileContent ;;
                  ret (node', None)
              end)).
Proof.
  unfold visit_code.
  destruct (List.find _ _) as [[|c0 fileMeta]|]; [by left| |by left].
  destruct (dirname file) as [[|d0 dir]|]; [by right; left| |by right; left].
  destruct (exec_fileMeta (c0 :: fileMeta)) as [res|]; [|right; right; left; by eexists].
  destruct (g_path res) as [|p0 filePath]; [right; right; left; by eexists|].
  cbv zeta.
  set (abs := path_resolve (d0 :: dir) (unescapeSpaces (replaceRootDir (p0 :: filePath) root))).
  set (job := {| job_path := abs; job_mode := mode_of (meta node);
                 job_from := parseInt <$> g_from res;
                 job_dash := g_dash res || bool_decide (parseInt <$> g_from res = None);
                 job_to := parseInt <$> g_to res |}).
  destruct (allowImportingFromOutside options); cbn [negb].
  - rewrite bind_ret_l. destruct (async options) eqn:Hasync.
    + right. right. right. right. left. exists job. split; [done|]. reflexivity.
    + right. right. right. right. right. exists job. split; [done|]. split; reflexivity.
  - destruct (bool_decide (root = []) || _ || _).
    + right. right. right. left. exists abs. reflexivity.
    + rewrite bind_ret_l. destruct (async options) eqn:Hasync.
      * right. right. right. right. left. exists job. split; [done|]. reflexivity.
      * right. right. right. right. right. exists job. split; [done|]. split; reflexivity.
Qed.

(** X16.  How an iteration fails.  An [Error] (no directory of the
    document, a token the directive expression does not match, a path
    outside the root) is thrown before any read is issued.  A read error
    follows the one synchronous read of the file that cannot be read.  A
    [TypeError] can only follow a synchronous read, in group mode.  In
    classic mode nothing is thrown once the file has been read, and with
    [async] set an iteration throws nothing but an [Error]. *)
Theorem failure_stages (root : jstring) (file : VFile) (node : Code)
    (t : list event) (e : exn) :
  visit options root file node = (t, Throw e) ->
  match e with
  | Error msg =>
      t = []
      /\ (msg = not_a_vfile
          \/ (exists tok, msg = unable_to_parse tok)
          \/ (exists abs, msg = outside_rootDir abs root))
  | ReadError p => t = [ReadFileSync p] /\ fs p = None /\ async options = false
  | TypeError =>
      (exists p t', t = ReadFileSync p :: t' /\ fs p <> None)
      /\ mode_of (meta node) = inline /\ async options = false
  end.
Proof.
  intros H.
  destruct (visit_code_cases root file node)
    as [E|[E|[[tok E]|[[abs E]|[(job & _ & E)|(job & Hsync & Hmode & E)]]]]];
    rewrite E in H; try done.
  - injection H as <- <-. split; [done|]. by left.
  - injection H as <- <-. split; [done|]. right. left. by exists tok.
  - injection H as <- <-. split; [done|]. right. right. by exists abs.
  - destruct (fs (job_path job)) as [fileContent|] eqn:Hfs.
    + cbn [emit bind] in H.
      destruct (bind (store_value _ _ _ _ _ _) _) as [t2 r] eqn:Hstore.
      injection H as <- ->.
      apply bind_Throw_inv in Hstore as [Hstore|(t1 & v & t3 & _ & Hstore & _)]; [|done].
      apply store_value_Throw in Hstore as [-> Hinline].
      split; [|split; [congruence|done]].
      exists (job_path job), t2. split; [done|]. congruence.
    + injection H as <- <-. done.
Qed.

Lemma visit_code_frame root file node t node' job :
  visit options root file node = (t, Normal (node', job)) ->
  meta node' = meta node
  /\ (async options = false -> job = None)
  /\ (async options = true ->
      node' = node /\ t = match job with
                         | Some j => [ReadFile (job_path j)]
                         | None => []
                         end).
Proof.
  intros H.
  destruct (visit_code_cases root file node)
    as [E|[E|[[tok E]|[[abs E]|[(j & Hasync & E)|(j & Hsync & _ & E)]]]]];
    rewrite E in H; try done.
  - injection H as <- <- <-. done.
  - injection H as <- <- <-. split; [done|]. split; [congruence|done].
  - apply bind_Normal_inv in H as (t1 & [] & t2 & _ & H & _).
    destruct (fs (job_path j)); [|done].
    apply bind_Normal_inv in H as (t3 & n & t4 & Hstore & H & _).
    injection H as _ <- <-. apply store_value_Normal in Hstore.
    split; [done|]. split; [done|congruence].
Qed.

(** X17.  What a pass leaves of the nodes.  When the loop over the code
    nodes ends without an exception, it returns as many nodes as it was
    given, each with the annotation it had.  Without [async] no read is
    left pending.  With [async] no node has been changed when the loop
    ends, and the events of the loop are exactly the reads it has issued,
    one for each directive, in document order. *)
Theorem pass_keeps_nodes (root : jstring) (file : VFile) (codes : list Code)
    (t : list event) (rs : list (Code * option Job)) :
  visit_all options root file codes = (t, Normal rs) ->
  map (fun r => meta (fst r)) rs = map meta codes
  /\ (async options = false -> Forall (fun r => snd r = None) rs)
  /\ (async options = true ->
      map fst rs = codes
      /\ t = omap (fun r => (fun j => ReadFile (job_path j)) <$> snd r) rs).
Proof.
  revert t rs. induction codes as [|node codes IH]; intros t rs H.
  - injection H as <- <-. done.
  - cbn [visit_codes] in H.
    apply bind_Normal_inv in H as (t1 & [node' job] & t2 & Hnode & H & ->).
    apply bind_Normal_inv in H as (t3 & rs' & t4 & Hrest & H & ->).
    injection H as <- <-.
    apply visit_code_frame in Hnode as (Hmeta & Hsync & Hasync).
    apply IH in Hrest as (IHmeta & IHsync & IHasync).
    split; [|split].
    + cbn [map fst]. by rewrite Hmeta, IHmeta.
    + intros Hs. constructor; [by apply Hsync|by apply IHsync].
    + intros Ha. destruct (Hasync Ha) as [-> ->]. destruct (IHasync Ha) as [Hcodes ->].
      split; [cbn [map fst]; by rewrite Hcodes|].
      rewrite app_nil_r. cbn [omap list_omap snd]. by destruct job.
Qed.

(** X18.  A pass stops at the first failure.  When the nodes before a
    node are visited without an exception and the node's iteration
    throws, the pass throws that exception, and its events are those of
    the nodes before followed by those of the failing iteration: the nodes
    behind it are not visited, so none of their files is read. *)
Theorem pass_stops_at_first_failure (root : jstring) (file : VFile)
    (before after : list Code) (node : Code)
    (t1 t2 : list event) (rs : list (Code * option Job)) (e : exn) :
  visit_all options root file before = (t1, Normal rs) ->
  visit options root file node = (t2, Throw e) ->
  pass options root (before ++ node :: after) file = (t1 ++ t2, Throw e).
Proof.
  intros Hbefore Hnode. unfold transformer.
  rewrite visit_codes_app, Hbefore. cbn [visit_codes]. rewrite Hnode. reflexivity.
Qed.

End Iteration.

Lemma failure_stages_witness :
  visit_code LF (js "/") toy_isAbsolute toy_resolve toy_relative toy_fs (fun s => s)
    (toy_options false) (js "/root") toy_file
    {| meta := Some (js "file=missing.js"); value := [] |}
  = ([ReadFileSync (js "/root/missing.js")], Throw (ReadError (js "/root/missing.js")))
  /\ ([ReadFileSync (js "/root/missing.js")] : list event)
     = [ReadFileSync (js "/root/missing.js")]
  /\ toy_fs (js "/root/missing.js") = None /\ async (toy_options false) = false.
Proof.
  exact (conj eq_refl
           (failure_stages LF (js "/") toy_isAbsolute toy_resolve toy_relative toy_fs
              (fun s => s) (toy_options false) (js "/root") toy_file
              {| meta := Some (js "file=missing.js"); value := [] |}
              [ReadFileSync (js "/root/missing.js")] (ReadError (js "/root/missing.js"))
              eq_refl)).
Defined.

Lemma pass_keeps_nodes_witness :
  map (fun r : Code * option Job => meta (fst r))
    [({| meta := Some (js "js"); value := js "x" |}, None);
     ({| meta := Some (js "file=../secret"); value := js "top" ++ LF ++ js "secret" |}, None)]
  = map meta [ {| meta := Some (js "js"); value := js "x" |};
               {| meta := Some (js "file=../secret"); value := js "old" |} ].
Proof.
  exact (proj1 (pass_keeps_nodes LF (js "/") toy_isAbsolute toy_resolve toy_relative toy_fs
                  (fun s => s) (toy_options true) (js "/root") toy_file
                  [ {| meta := Some (js "js"); value := js "x" |};
                    {| meta := Some (js "file=../secret"); value := js "old" |} ]
                  [ReadFileSync (js "/root/../secret")]
                  [({| meta := Some (js "js"); value := js "x" |}, None);
                   ({| meta := Some (js "file=../secret");
                       value := js "top" ++ LF ++ js "secret" |}, None)]
                  eq_refl)).
Defined.

Lemma pass_stops_at_first_failure_witness :
  transformer LF (js "/") toy_isAbsolute toy_resolve toy_relative toy_fs (fun s => s)
    (toy_options true) (js "/root")
    ([ {| meta := Some (js "file=../secret"); value := [] |} ] ++
     {| meta := Some (js "file=nowhere.js"); value := [] |} ::
     [ {| meta := Some (js "file=../secret"); value := [] |} ])
    toy_file
  = ([ReadFileSync (js "/root/../secret")] ++ [ReadFileSync (js "/root/nowhere.js")],
     Throw (ReadError (js "/root/nowhere.js"))).
Proof.
  exact (pass_stops_at_first_failure LF (js "/") toy_isAbsolute toy_resolve toy_relative
           toy_fs (fun s => s) (toy_options true) (js "/root") toy_file
           [ {| meta := Some (js "file=../secret"); value := [] |} ]
           [ {| meta := Some (js "file=../secret"); value := [] |} ]
           {| meta := Some (js "file=nowhere.js"); value := [] |}
           [ReadFileSync (js "/root/../secret")] [ReadFileSync (js "/root/nowhere.js")]
           [({| meta := Some (js "file=../secret"); value := js "top" ++ LF ++ js "secret" |},
             None)]
           (ReadError (js "/root/nowhere.js")) eq_refl eq_refl).
Defined.

(** ** The two ways of reading *)

(** X19.  The two schedules do the same work.  The iteration of a node
    without [async] is the iteration with [async] followed at once by the
    callback of the read it has issued: the same exception before any
    read, the same skip, and otherwise one synchronous read in place of
    the issued one, the node the callback leaves, and the read error
    thrown where the callback rejects. *)
Theorem sync_is_async_then_callback (EOL path_sep : jstring)
    (path_isAbsolute : jstring -> bool)
    (path_resolve path_relative : jstring -> jstring -> jstring)
    (fs : jstring -> option jstring) (stripIndent : jstring -> jstring)
    (options : CodeImportOptions) (root : jstring) (file : VFile) (node : Code) :
  visit_code EOL path_sep path_isAbsolute path_resolve path_relative fs stripIndent
    (with_async false options) root file node
  = match visit_code EOL path_sep path_isAbsolute path_resolve path_relative fs stripIndent
            (with_async true options) root file node with
    | (t, Throw e) => (t, Throw e)
    | (_, Normal (n, None)) => ret (n, None)
    | (_, Normal (n, Some job)) =>
        emit (ReadFileSync (job_path job)) ;;;
        r <- readFile_callback EOL fs stripIndent (with_async true options) job n ;;
        match r with
        | inl n' => ret (n', None)
        | inr e => throw e
        end
    end.
Proof.
  unfold visit_code.
  destruct (List.find _ _) as [[|c0 fileMeta]|]; [done| |done].
  destruct (dirname file) as [[|d0 dir]|]; [done| |done].
  destruct (exec_fileMeta (c0 :: fileMeta)) as [res|]; [|done].
  destruct (g_path res) as [|p0 filePath]; [done|].
  cbv zeta. change (async (with_async false options)) with false.
  change (async (with_async true options)) with true.
  change (allowImportingFromOutside (with_async false options))
    with (allowImportingFromOutside options).
  change (allowImportingFromOutside (with_async true options))
    with (allowImportingFromOutside options).
  set (abs := path_resolve (d0 :: dir) (unescapeSpaces (replaceRootDir (p0 :: filePath) root))).
  set (job := {| job_path := abs; job_mode := mode_of (meta node);
                 job_from := parseInt <$> g_from res;
                 job_dash := g_dash res || bool_decide (parseInt <$> g_from res = None);
                 job_to := parseInt <$> g_to res |}).
  assert (Hread :
    ((emit (ReadFileSync abs) ;;;
      match fs abs with
      | None => throw (ReadError abs)
      | Some fileContent =>
          node' <- store_value EOL stripIndent (with_async false options) node job fileContent ;;
          ret (node', None)
      end) : Eff (Code * option Job))
    = (emit (ReadFileSync (job_path job)) ;;;
       r <- readFile_callback EOL fs stripIndent (with_async true options) job node ;;
       match r with
       | inl n' => ret (n', None)
       | inr e => throw e
       end)).
  { apply bind_ext. intros _. unfold readFile_callback. cbn [job_path job].
    destruct (fs abs) as [fileContent|]; [|done].
    rewrite bind_assoc. apply bind_ext. intros node'. by rewrite bind_ret_l. }
  destruct (negb (allowImportingFromOutside options)).
  - destruct (bool_decide (root = []) || _ || _); [done|].
    rewrite !bind_ret_l. exact Hread.
  - rewrite !bind_ret_l. exact Hread.
Qed.

(** ** Directives that are read *)

Lemma unescapeSpaces_plain p : free_of 92 p = true -> unescapeSpaces p = p.
Proof.
  induction p as [|c p IH]; [done|]. intros H. simpl in H.
  apply andb_true_iff in H as [Hc Hp]. apply negb_true_iff, N.eqb_neq in Hc.
  rewrite unescapeSpaces_other by done. by rewrite IH.
Qed.

(** X20.  A whole file, from the annotation to the node.  Where the line
    terminator is a line feed: for an annotation that is [file=] and a
    path without spaces, backslashes, [#] or the text [inline], not
    beginning with [<rootDir>], a document with a directory, a path that
    is allowed (outside imports permitted, or a location relative to the
    root that neither begins with the traversal segment nor is absolute),
    and a file that can be read, the synchronous iteration reads the
    resolved path once and stores the file content in the node, without
    one trailing line feed unless [preserveTrailingNewline] is set, passed
    through [stripIndent] when [removeRedundantIndentations] is set. *)
Theorem whole_file_import (path_sep : jstring) (path_isAbsolute : jstring -> bool)
    (path_resolve path_relative : jstring -> jstring -> jstring)
    (fs : jstring -> option jstring) (stripIndent : jstring -> jstring)
    (options : CodeImportOptions) (root dir path F body : jstring) :
  is_path path = true ->
  free_of 32 path = true -> free_of 92 path = true -> free_of 35 path = true ->
  startsWith path (js "<rootDir>") = false ->
  includes (js "file=" ++ path) (js "inline") = false ->
  dir <> [] ->
  async options = false ->
  (allowImportingFromOutside options = true
   \/ (root <> []
       /\ startsWith (path_relative root (path_resolve dir path)) (js ".." ++ path_sep) = false
       /\ path_isAbsolute (path_relative root (path_resolve dir path)) = false)) ->
  fs (path_resolve dir path) = Some F ->
  visit_code LF path_sep path_isAbsolute path_resolve path_relative fs stripIndent options
    root {| dirname := Some dir |} {| meta := Some (js "file=" ++ path); value := body |}
  = ([ReadFileSync (path_resolve dir path)],
     Normal ({| meta := Some (js "file=" ++ path);
                value :=
                  let v := if preserveTrailingNewline options then F
                           else if endsWith F LF then take (length F - 1) F else F in
                  if removeRedundantIndentations options then stripIndent v else v |},
             None)).
Proof.
  intros Hp Hsp Hbs Hhash Hroot Hinline Hdir Hasync Hallowed Hfs.
  unfold visit_code. cbn [meta default value dirname].
  assert (Hsplit : splitMeta (js "file=" ++ path) = [js "file=" ++ path]).
  { unfold splitMeta. rewrite splitMeta_scan_no_space; [done|].
    unfold free_of in *. by rewrite forallb_app, Hsp. }
  unfold id. rewrite Hsplit. cbn [List.find]. rewrite startsWith_app.
  rewrite (exec_fileMeta_bare path Hp Hhash). cbn [g_path g_from g_dash g_to].
  destruct dir as [|d0 dir]; [done|].
  change (js "file=" ++ path) with (102 :: js "ile=" ++ path) at 1.
  cbv iota.
  assert (Hnorm : unescapeSpaces (replaceRootDir path root) = path).
  { unfold replaceRootDir. rewrite Hroot. by apply unescapeSpaces_plain. }
  destruct path as [|p0 path']; [done|].
  rewrite Hnorm. set (path := p0 :: path') in *.
  assert (Hcheck :
    (if negb (allowImportingFromOutside options)
     then if bool_decide (root = [])
             || startsWith (path_relative root (path_resolve (d0 :: dir) path))
                  (js ".." ++ path_sep)
             || path_isAbsolute (path_relative root (path_resolve (d0 :: dir) path))
          then throw (Error (outside_rootDir (path_resolve (d0 :: dir) path) root))
          else ret tt
     else ret tt) = ret tt).
  { destruct Hallowed as [-> | (Hr & -> & ->)]; [done|].
    rewrite bool_decide_eq_false_2 by done. by destruct (allowImportingFromOutside options). }
  rewrite Hcheck, bind_ret_l, Hasync, Hfs.
  unfold store_value, mode_of. cbn [meta default value job_mode job_from job_dash job_to].
  unfold id. rewrite Hinline. cbn [fmap option_fmap option_map orb].
  rewrite bool_decide_eq_true_2 by done.
  destruct (preserveTrailingNewline options).
  - rewrite extractLines_whole_preserved, !bind_ret_l. reflexivity.
  - rewrite extractLines_whole_trimmed, !bind_ret_l. reflexivity.
Qed.

Lemma whole_file_import_witness :
  visit_code LF (js "/") toy_isAbsolute toy_resolve toy_relative toy_fs (fun s => s)
    (toy_options true) (js "/root") {| dirname := Some (js "/root") |}
    {| meta := Some (js "file=../secret"); value := js "old" |}
  = ([ReadFileSync (js "/root/../secret")],
     Normal ({| meta := Some (js "file=../secret"); value := js "top" ++ LF ++ js "secret" |},
             None)).
Proof.
  refine (eq_trans
            (whole_file_import (js "/") toy_isAbsolute toy_resolve toy_relative toy_fs
               (fun s => s) (toy_options true) (js "/root") (js "/root") (js "../secret")
               (js "top" ++ LF ++ js "secret" ++ LF) (js "old")
               eq_refl eq_refl eq_refl eq_refl eq_refl eq_refl _ eq_refl
               (or_introl eq_refl) eq_refl)
            eq_refl).
  discriminate.
Defined.

(** ** The entry point *)

Lemma visit_codes_plain EOL path_sep path_isAbsolute path_resolve path_relative fs
    stripIndent options root file (codes : list Code) :
  forallb (fun node => negb (has_token_beginning (js "file=") (default [] (meta node)))) codes
    = true ->
  visit_codes EOL path_sep path_isAbsolute path_resolve path_relative fs stripIndent
    options root file codes
  = ret (map (fun node => (node, None)) codes).
Proof.
  induction codes as [|node codes IH]; intros H; [done|].
  simpl in H. apply andb_true_iff in H as [Hnode Hrest]. apply negb_true_iff in Hnode.
  cbn [visit_codes map]. rewrite (IH Hrest).
  unfold visit_code. rewrite (find_fileMeta_None _ Hnode). by rewrite !bind_ret_l.
Qed.

(** X21.  The entry point.  When the root ([rootDir], or the working
    directory when [rootDir] is absent or empty) is not absolute,
    [codeImport] throws the configuration error before it looks at any
    node.  When it is absolute and no code block of the document has a
    token that begins with [file=], the pass returns every node as it
    was, reads nothing and prints nothing, with or without [async] and
    whether or not the document has a directory. *)
Theorem entry_point (EOL path_sep : jstring) (path_isAbsolute : jstring -> bool)
    (path_resolve path_relative : jstring -> jstring -> jstring) (process_cwd : jstring)
    (fs : jstring -> option jstring) (stripIndent : jstring -> jstring)
    (options : CodeImportOptions) (codes : list Code) (file : VFile) :
  (path_isAbsolute (effective_rootDir process_cwd options) = false ->
   codeImport EOL path_sep path_isAbsolute path_resolve path_relative process_cwd fs
     stripIndent options codes file
   = throw (Error rootDir_not_absolute))
  /\ (path_isAbsolute (effective_rootDir process_cwd options) = true ->
      forallb (fun node => negb (has_token_beginning (js "file=") (default [] (meta node))))
        codes = true ->
      codeImport EOL path_sep path_isAbsolute path_resolve path_relative process_cwd fs
        stripIndent options codes file
      = ret (Returned codes)).
Proof.
  unfold codeImport. split; intros ->; [done|]. intros Hplain. cbn [negb].
  unfold transformer. rewrite (visit_codes_plain _ _ _ _ _ _ _ _ _ _ _ Hplain), bind_ret_l.
  assert (Hnone : forallb (fun r : Code * option Job => bool_decide (snd r = None))
                    (map (fun node => (node, None)) codes) = true).
  { clear Hplain. induction codes as [|node codes IH]; [done|]. simpl. by rewrite IH. }
  rewrite Hnone. f_equal. f_equal. f_equal.
  clear. induction codes as [|node codes IH]; [done|]. simpl. by rewrite IH.
Qed.

Lemma entry_point_witness :
  codeImport LF (js "/") toy_isAbsolute toy_resolve toy_relative (js "/work") toy_fs
    (fun s => s) (toy_options false)
    [ {| meta := None; value := js "a" |}; {| meta := Some (js "js {1,2}"); value := js "b" |} ]
    {| dirname := None |}
  = ret (Returned [ {| meta := None; value := js "a" |};
                    {| meta := Some (js "js {1,2}"); value := js "b" |} ]).
Proof.
  exact (proj2 (entry_point LF (js "/") toy_isAbsolute toy_resolve toy_relative (js "/work")
                  toy_fs (fun s => s) (toy_options false)
                  [ {| meta := None; value := js "a" |};
                    {| meta := Some (js "js {1,2}"); value := js "b" |} ]
                  {| dirname := None |}) eq_refl eq_refl).
Defined.

(** ** Further examples *)

Lemma marker_lines_witness :
  forallb is_group_char (js "a-1") = true
  /\ exists before after,
       js "<!-- group a-1 -->" = before ++ js "group " ++ js "a-1" ++ after
       /\ includes (before ++ js "group") (js "group ") = false
       /\ match after with [] => True | c :: _ => is_group_char c = false end.
Proof.
  exact (proj1 (proj2 (marker_lines (js "<!-- group a-1 -->"))) (js "a-1") eq_refl).
Defined.

Lemma parse_fails_exactly_witness :
  js "a#L1-x" <> [] /\ js "a#L1-x" `prefix_of` drop 5 (js "file=a#L1-x").
Proof.
  exact (proj2 (parse_fails_exactly (js "file=a#L1-x"))
           {| g_path := js "a#L1-x"; g_from := None; g_dash := false; g_to := None |}
           eq_refl).
Defined.
